(** * Radar geometry, site coordinates and ODIM utilities of RAVE

    A shallow embedding of
      - [librave/rack/drain/radar/Geometry.cpp]     (module [Geometry]),
      - [librave/rack/drain/radar/Coordinates.cpp]  (module [Coordinates]),
      - [librave/toolbox/odim_io_utilities.c]       (module [OdimIoUtilities]),
    followed by the properties proved about them.

    Number model.  [findClosestElevations] only compares and copies
    single-precision values; IEEE comparison of finite values is exact, so
    the elevation angles are modelled by the rationals they denote ([Q]) and
    the function stays executable.  The closed-form geometry and the unit
    conversions evaluate [sqrt], [cos], [asin], [log10], [pow] on doubles;
    they are modelled by the real-number formulas the code writes down
    ([R]), rounding is not modelled: [float] parameters and [float]
    products are taken as exact reals, and [pow] is never zero.  What is
    proved of these formulas is a statement about the exact values; the
    rounded results of the program can tie where the formulas differ, and
    [pow] can underflow to zero.  C [int] values are [Z], the
    conversion from [size_t] to [int] is written out as a wrap-around. *)

From Stdlib Require Import ZArith QArith Qminmax List Bool Ascii String Lia.
From Stdlib Require Import Reals Lra.
Import ListNotations.

(** ** Machine integers *)

(** Conversion of an unsigned size to a 32-bit [int] (two's complement). *)
Definition int_of_size (n : Z) : Z :=
  ((n + 2 ^ 31) mod 2 ^ 32 - 2 ^ 31)%Z.

Definition INT_MAX : Z := (2 ^ 31 - 1)%Z.

(** ** Geometry.cpp *)

Module Geometry.

(** [(float)(M_PI/2.0)]: the single-precision value nearest to pi/2,
    bit pattern 0x3FC90FDB, that is 13176795 * 2^-23. *)
Definition M_PI_2_float : Q := 13176795 # 8388608.

Definition Qlt_bool (x y : Q) : bool := negb (Qle_bool y x).

(** The four reference parameters written by [findClosestElevations]. *)
Record Closest : Type := mkClosest {
  elevationIndexLower : Z;
  elevationAngleLower : Q;
  elevationIndexUpper : Z;
  elevationAngleUpper : Q
}.

(** State on entry of the loop (lines 59-63). *)
Definition closest_init : Closest :=
  {| elevationIndexLower := (-1)%Z;
     elevationAngleLower := - M_PI_2_float;
     elevationIndexUpper := (-1)%Z;
     elevationAngleUpper := M_PI_2_float |}.

(** One iteration of the loop body (lines 68-78) at index [i].  The element
    is read into the double [e]; the two tests compare doubles, and storing
    [e] back into a [float] reference returns the element unchanged. *)
Definition closest_step (elevationAngle : Q) (st : Closest) (i : nat) (e : Q)
  : Closest :=
  let st1 :=
    if Qlt_bool (elevationAngleLower st) e && Qle_bool e elevationAngle
    then {| elevationIndexLower := int_of_size (Z.of_nat i);
            elevationAngleLower := e;
            elevationIndexUpper := elevationIndexUpper st;
            elevationAngleUpper := elevationAngleUpper st |}
    else st in
  if Qlt_bool e (elevationAngleUpper st1) && Qle_bool elevationAngle e
  then {| elevationIndexLower := elevationIndexLower st1;
          elevationAngleLower := elevationAngleLower st1;
          elevationIndexUpper := int_of_size (Z.of_nat i);
          elevationAngleUpper := e |}
  else st1.

(** [for (i = 0; i < elevationAngles.size(); i++)], the remaining elements
    being [es] and the next index [i]. *)
Fixpoint closest_loop (elevationAngle : Q) (i : nat) (es : list Q)
         (st : Closest) : Closest :=
  match es with
  | [] => st
  | e :: es' =>
      closest_loop elevationAngle (S i) es' (closest_step elevationAngle st i e)
  end.

Definition findClosestElevations (elevationAngles : list Q) (elevationAngle : Q)
  : Closest :=
  closest_loop elevationAngle 0 elevationAngles closest_init.

(** *** Closed-form conversions of the 4/3-Earth model *)

Local Open Scope R_scope.

Definition EARTH_RADIUSi : Z := 6371000%Z.
Definition EARTH_RADIUS_43 : R := 4 / 3 * IZR EARTH_RADIUSi.
Definition M_PI : R := PI.

(** Altitude at slant range [b] and elevation [eta] (cosine rule).  In the
    source [eta] and [b] are [float] and [b*b] is a [float] product; here
    they are exact reals. *)
Definition heightFromEtaBeam (eta b : R) : R :=
  let a := EARTH_RADIUS_43 in
  sqrt (a * a + b * b - 2 * a * b * cos (M_PI / 2 + eta)) - a.

(** Altitude at ground angle [beta] and elevation [eta] (sine rule). *)
Definition heightFromEtaBeta (eta beta : R) : R :=
  let a := EARTH_RADIUS_43 in
  a * (cos eta / cos (beta + eta) - 1).

(** Altitude at ground distance [g] and elevation [eta]. *)
Definition heightFromEtaGround (eta g : R) : R :=
  let a := EARTH_RADIUS_43 in
  let beta := g / (EARTH_RADIUS_43 * 2) in
  a * (cos eta / cos (eta + beta) - 1).

(** Slant range at ground angle [beta] and altitude [h] (exact reals for
    the doubles of the source). *)
Definition beamFromBetaH (beta h : R) : R :=
  let a := EARTH_RADIUS_43 in
  sqrt ((2 * a) * (a + h) * (1 - cos beta) + h * h).

(** Slant range at elevation [eta] and altitude [h] (sine rule). *)
Definition beamFromEtaH (eta h : R) : R :=
  let c := EARTH_RADIUS_43 + h in
  let a := EARTH_RADIUS_43 in
  let gamma := eta + M_PI / 2 in
  let beta := M_PI - gamma - asin (a * sin gamma / c) in
  sin beta * c / sin gamma.

(** *** The other conversions of Geometry.cpp *)

(** [Geometry::Geometry()]: the beam width is one degree. *)
Definition default_beamWidth : R := 1 * (M_PI / 180).

(** [normalizedBeamPower(angle)] for an object of beam width [beamWidth];
    [angle] is the distance from the beam centre.  The code keeps the square
    of the beam width in a [float]; that rounding is not modelled. *)
Definition normalizedBeamPower (beamWidth angle : R) : R :=
  let w2 := beamWidth * beamWidth in
  w2 / (w2 + angle * angle).

(** Slant range at elevation [eta] and ground angle [beta] (sine rule). *)
Definition beamFromEtaBeta (eta beta : R) : R :=
  let a := EARTH_RADIUS_43 in
  let alpha := M_PI - (eta + M_PI / 2) - beta in
  sin beta * a / sin alpha.

(** Slant range at elevation [eta] and ground distance [g]. *)
Definition beamFromEtaGround (eta g : R) : R :=
  let beta := g / EARTH_RADIUS_43 in
  let alpha := M_PI - (eta + M_PI / 2) - beta in
  sin beta * EARTH_RADIUS_43 / sin alpha.

(** Ground distance of the point under the bin at slant range [b].  The
    code keeps [x] and [y] in [float]s; that rounding is not modelled. *)
Definition groundFromEtaB (eta b : R) : R :=
  let x := b * cos eta in
  let y := b * sin eta in
  EARTH_RADIUS_43 * atan (x / (y + EARTH_RADIUS_43)).

(** Elevation at ground angle [beta] and altitude [h] (cosine rule). *)
Definition etaFromBetaH (beta h : R) : R :=
  let a := EARTH_RADIUS_43 in
  let a2 := a * a in
  let c := h + EARTH_RADIUS_43 in
  let c2 := c * c in
  let b := sqrt (a2 + c2 - 2 * a * c * cos beta) in
  acos ((a - (a + h) * cos beta) / b) - M_PI / 2.

Definition bFromGH (g h : R) : R := beamFromBetaH (g / EARTH_RADIUS_43) h.

Definition etaFromGH (g h : R) : R := etaFromBetaH (g / EARTH_RADIUS_43) h.

End Geometry.

(** ** Vocabulary of the statements about elevation lists *)

(** Strictly ascending list of elevation angles. *)
Fixpoint strictly_ascending (l : list Q) : Prop :=
  match l with
  | [] => True
  | x :: r => match r with
              | [] => True
              | y :: _ => x < y
              end /\ strictly_ascending r
  end.

(** Smallest and greatest element of a list ([0] for the empty list). *)
Definition min_elevation (l : list Q) : Q :=
  match l with
  | [] => 0
  | x :: r => fold_left Qmin r x
  end.

Definition max_elevation (l : list Q) : Q :=
  match l with
  | [] => 0
  | x :: r => fold_left Qmax r x
  end.

(** Angles a scan list may hold for the search to see them: strictly inside
    the two initial bounds of [findClosestElevations]. *)
Definition inside_bounds (e : Q) : Prop :=
  - Geometry.M_PI_2_float < e /\ e < Geometry.M_PI_2_float.

(** The target lies within [min S, max S]. *)
Definition within_elevations (S : list Q) (t : Q) : Prop :=
  (min_elevation S <= t)%Q /\ (t <= max_elevation S)%Q.

(** Loop invariants of [findClosestElevations] for the target [t]. *)

(** What the lower pair holds once the elements [seen] are processed. *)
Definition lower_ok (t : Q) (seen : list Q) (st : Geometry.Closest) : Prop :=
  (Geometry.elevationIndexLower st = (-1)%Z /\
   Geometry.elevationAngleLower st = (- Geometry.M_PI_2_float)%Q /\
   forall e, In e seen -> ~ (e <= t)%Q)
  \/
  (exists l el,
      Geometry.elevationIndexLower st = Z.of_nat l /\
      nth_error seen l = Some el /\
      Geometry.elevationAngleLower st = el /\
      (el <= t)%Q /\
      forall e, In e seen -> (e <= t)%Q -> (e <= el)%Q).

Definition upper_ok (t : Q) (seen : list Q) (st : Geometry.Closest) : Prop :=
  (Geometry.elevationIndexUpper st = (-1)%Z /\
   Geometry.elevationAngleUpper st = Geometry.M_PI_2_float /\
   forall e, In e seen -> ~ (t <= e)%Q)
  \/
  (exists u eu,
      Geometry.elevationIndexUpper st = Z.of_nat u /\
      nth_error seen u = Some eu /\
      Geometry.elevationAngleUpper st = eu /\
      (t <= eu)%Q /\
      forall e, In e seen -> (t <= e)%Q -> (eu <= e)%Q).

(** ** Coordinates.cpp *)

Module Coordinates.

Local Open Scope R_scope.

(** Modelled from the spec: [Coordinates::EARTH_RADIUS] is declared in
    Coordinates.h, which is not part of the sources at hand; the data model
    gives the Earth radius constant as 6 371 000 m. *)
Definition EARTH_RADIUS : R := 6371000.

(** [atan2] of the C library on real numbers: the angle of the point
    [(x, y)] in (-pi, pi]. *)
Definition atan2 (y x : R) : R :=
  if Rlt_dec 0 x then atan (y / x)
  else if Rlt_dec x 0 then
    (if Rle_dec 0 y then atan (y / x) + PI else atan (y / x) - PI)
  else if Rlt_dec 0 y then PI / 2
  else if Rlt_dec y 0 then - (PI / 2)
  else 0.

(** The member variables of a [Coordinates] object. *)
Record t : Type := mk {
  p01 : R; p02 : R; p03 : R;       (* radar position vector *)
  e11 : R; e12 : R; e13 : R;       (* site unit vector, east *)
  e21 : R; e22 : R; e23 : R;       (* site unit vector, north *)
  p1 : R; p2 : R; p3 : R;          (* bin position vector *)
  phiBin : R;                      (* bin longitude *)
  thetaBin : R                     (* bin latitude *)
}.

(** [origin(theta, phi)]: latitude [theta], longitude [phi], radians. *)
Definition origin (theta phi : R) (c : t) : t :=
  let sin_theta := sin theta in
  let cos_theta := cos theta in
  let sin_phi := sin phi in
  let cos_phi := cos phi in
  {| p01 := EARTH_RADIUS * cos_phi * cos_theta;
     p02 := EARTH_RADIUS * sin_phi * cos_theta;
     p03 := EARTH_RADIUS * sin_theta;
     e11 := - sin_phi;
     e12 := cos_phi;
     e13 := 0;
     e21 := - cos_phi * sin_theta;
     e22 := - sin_phi * sin_theta;
     e23 := cos_theta;
     p1 := p1 c; p2 := p2 c; p3 := p3 c;
     phiBin := phiBin c; thetaBin := thetaBin c |}.

Definition setBinPosition (azimuth range : R) (c : t) : t :=
  let x1 := cos (range / (EARTH_RADIUS * 2)) in
  let x2 := range * sin azimuth in
  let x3 := range * cos azimuth in
  let p1' := p01 c * x1 + e11 c * x2 + e21 c * x3 in
  let p2' := p02 c * x1 + e12 c * x2 + e22 c * x3 in
  let p3' := p03 c * x1 + e13 c * x2 + e23 c * x3 in
  {| p01 := p01 c; p02 := p02 c; p03 := p03 c;
     e11 := e11 c; e12 := e12 c; e13 := e13 c;
     e21 := e21 c; e22 := e22 c; e23 := e23 c;
     p1 := p1'; p2 := p2'; p3 := p3';
     phiBin := atan2 p2' p1';
     thetaBin := asin (p3' / EARTH_RADIUS) |}.

(** [setOriginDeg(lat, lon)]: the site in degrees. *)
Definition setOriginDeg (lat lon : R) (c : t) : t :=
  origin (lat / 180 * PI) (lon / 180 * PI) c.

(** *** The bounding box of a sweep *)

(** The four reference parameters written by [getBoundingBox]. *)
Record Box : Type := mkBox {
  latMin : R; lonMin : R; latMax : R; lonMax : R
}.

Section BoundingBox.

(** [binLatitudeDeg()] and [binLongitudeDeg()] are defined in Coordinates.h,
    which is not among the sources: they are parameters, functions of the
    object they read. *)
Variable binLatitudeDeg : t -> R.
Variable binLongitudeDeg : t -> R.

(** Lines 135-138. *)
Definition box_init : Box :=
  {| latMin := 360; lonMin := 360; latMax := -360; lonMax := -360 |}.

(** The body of the loop (lines 141-152) at the azimuth of [i] degrees; the
    debug output is left out. *)
Definition box_body (range : R) (i : Z) (st : t * Box) : t * Box :=
  let '(c, box) := st in
  let azm := IZR i * PI / 180 in
  let c' := setBinPosition azm range c in
  let lat := binLatitudeDeg c' in
  let lon := binLongitudeDeg c' in
  (c', {| latMin := Rmin lat (latMin box);
          lonMin := Rmin lon (lonMin box);
          latMax := Rmax lat (latMax box);
          lonMax := Rmax lon (lonMax box) |}).

(** [for (int i = 0; i < 360; i += 20)], with [fuel] bounding the number of
    iterations. *)
Fixpoint box_loop (fuel : nat) (range : R) (i : Z) (st : t * Box) : t * Box :=
  match fuel with
  | O => st
  | S fuel' =>
      if (i <? 360)%Z
      then box_loop fuel' range (i + 20)%Z (box_body range i st)
      else st
  end.

(** The object and the box on return. *)
Definition getBoundingBox (range : R) (c : t) : t * Box :=
  box_loop 360 range 0%Z (setBinPosition 0 0 c, box_init).

End BoundingBox.

End Coordinates.

(** *** The bin position in the words of the design: vectors *)

Definition vec3 : Type := (R * R * R)%type.

Definition vscale (k : R) (v : vec3) : vec3 :=
  let '(x, y, z) := v in (k * x, k * y, k * z)%R.

Definition vadd (u v : vec3) : vec3 :=
  let '(x, y, z) := u in
  let '(x', y', z') := v in (x + x', y + y', z + z')%R.

Definition site_p0 (c : Coordinates.t) : vec3 :=
  (Coordinates.p01 c, Coordinates.p02 c, Coordinates.p03 c).
Definition site_eE (c : Coordinates.t) : vec3 :=
  (Coordinates.e11 c, Coordinates.e12 c, Coordinates.e13 c).
Definition site_eN (c : Coordinates.t) : vec3 :=
  (Coordinates.e21 c, Coordinates.e22 c, Coordinates.e23 c).
Definition bin_p (c : Coordinates.t) : vec3 :=
  (Coordinates.p1 c, Coordinates.p2 c, Coordinates.p3 c).

(** [p = p0 cos(range/(2R)) + eE range sin(azimuth) + eN range cos(azimuth)]
    for an Earth radius [radius]. *)
Definition spec_bin_position (radius : R) (c : Coordinates.t)
           (azimuth range : R) : vec3 :=
  vadd (vadd (vscale (cos (range / (2 * radius))) (site_p0 c))
             (vscale (range * sin azimuth) (site_eE c)))
       (vscale (range * cos azimuth) (site_eN c)).

(** ** The C library on strings

    A [const char*] is modelled by the characters it points to, up to and
    without the terminating NUL; a pointer into a string is the suffix that
    starts there, so that the difference of two pointers into one string is
    the difference of the lengths of their suffixes.  A writable buffer is
    the list of the bytes it holds. *)

Module CString.

Definition NUL : ascii := Ascii.zero.

Definition char_eqb (a b : ascii) : bool := Ascii.eqb a b.

(** [size_t strlen(s)] *)
Definition strlen (s : list ascii) : Z := Z.of_nat (List.length s).

(** Does [s] start with [pre]? *)
Fixpoint starts_with (pre s : list ascii) : bool :=
  match pre, s with
  | [], _ => true
  | _ :: _, [] => false
  | a :: pre', b :: s' => char_eqb a b && starts_with pre' s'
  end.

(** [strstr(haystack, needle)]: the first position where [needle] starts,
    [None] for the null pointer. *)
Fixpoint strstr (haystack needle : list ascii) : option (list ascii) :=
  if starts_with needle haystack then Some haystack
  else match haystack with
       | [] => None
       | _ :: rest => strstr rest needle
       end.

(** [strpbrk(s, accept)]: the first position of [s] that holds a character
    of [accept]. *)
Fixpoint strpbrk (s accept : list ascii) : option (list ascii) :=
  match s with
  | [] => None
  | c :: rest =>
      if existsb (char_eqb c) accept then Some s else strpbrk rest accept
  end.

(** [buf[i] = c]; a store outside the buffer is left out of the model (the
    callers below store inside it). *)
Fixpoint store (buf : list ascii) (i : nat) (c : ascii) : list ascii :=
  match buf, i with
  | [], _ => []
  | _ :: rest, O => c :: rest
  | b :: rest, S i' => b :: store rest i' c
  end.

(** [strncpy(dest, src, n)]: exactly [n] bytes are written, the characters
    of [src] first, then NUL padding once [src] is exhausted. *)
Fixpoint strncpy_from (dest : list ascii) (i : nat) (src : list ascii)
         (n : nat) : list ascii :=
  match n with
  | O => dest
  | S n' =>
      match src with
      | [] => strncpy_from (store dest i NUL) (S i) [] n'
      | c :: src' => strncpy_from (store dest i c) (S i) src' n'
      end
  end.

Definition strncpy (dest src : list ascii) (n : nat) : list ascii :=
  strncpy_from dest 0 src n.

(** [tolower] in the C locale. *)
Definition tolower (c : ascii) : ascii :=
  let n := nat_of_ascii c in
  if (65 <=? n)%nat && (n <=? 90)%nat then ascii_of_nat (n + 32) else c.

Definition uchar (c : ascii) : Z := Z.of_nat (nat_of_ascii c).

(** [strcasecmp(s1, s2)]: the difference of the first pair of characters
    that differ after [tolower], [0] when there is none. *)
Fixpoint strcasecmp (s1 s2 : list ascii) : Z :=
  match s1, s2 with
  | [], [] => 0
  | [], c2 :: _ => 0 - uchar (tolower c2)
  | c1 :: _, [] => uchar (tolower c1)
  | c1 :: r1, c2 :: r2 =>
      let d := (uchar (tolower c1) - uchar (tolower c2))%Z in
      if (d =? 0)%Z then strcasecmp r1 r2 else d
  end.

End CString.

(** A string literal as a C string. *)
Definition cstr (s : string) : list ascii := list_ascii_of_string s.

(** ** odim_io_utilities.c *)

Module OdimIoUtilities.

Import CString.

(** *** Attributes

    rave_attribute.h and rave_attribute.c are not among the sources.  An
    attribute is modelled by its format tag together with the value stored
    under it, which is all the accessors used here read or write. *)

(** The formats tested in odim_io_utilities.c and pyverticalprofile.c. *)
Inductive RaveAttribute_Format : Type :=
| RaveAttribute_Format_Undefined
| RaveAttribute_Format_String
| RaveAttribute_Format_Long
| RaveAttribute_Format_Double
| RaveAttribute_Format_LongArray
| RaveAttribute_Format_DoubleArray.

(** Modelled from the spec: [RaveAttribute_t] is declared in
    rave_attribute.h, which is missing; an attribute holds a value of one of
    the formats above. *)
Inductive RaveAttribute_t : Type :=
| AttrUndefined
| AttrString (s : list ascii)
| AttrLong (v : Z)
| AttrDouble (v : R)
| AttrLongArray (a : list Z)
| AttrDoubleArray (a : list R).

(** Modelled from the spec: [RaveAttribute_getFormat] of the missing
    rave_attribute.c, the format of the value held. *)
Definition RaveAttribute_getFormat (attr : RaveAttribute_t)
  : RaveAttribute_Format :=
  match attr with
  | AttrUndefined => RaveAttribute_Format_Undefined
  | AttrString _ => RaveAttribute_Format_String
  | AttrLong _ => RaveAttribute_Format_Long
  | AttrDouble _ => RaveAttribute_Format_Double
  | AttrLongArray _ => RaveAttribute_Format_LongArray
  | AttrDoubleArray _ => RaveAttribute_Format_DoubleArray
  end.

Definition Format_eqb (f g : RaveAttribute_Format) : bool :=
  match f, g with
  | RaveAttribute_Format_Undefined, RaveAttribute_Format_Undefined
  | RaveAttribute_Format_String, RaveAttribute_Format_String
  | RaveAttribute_Format_Long, RaveAttribute_Format_Long
  | RaveAttribute_Format_Double, RaveAttribute_Format_Double
  | RaveAttribute_Format_LongArray, RaveAttribute_Format_LongArray
  | RaveAttribute_Format_DoubleArray, RaveAttribute_Format_DoubleArray => true
  | _, _ => false
  end.

(** Modelled from the spec: [RaveAttribute_getDouble(attr, &v)] of the
    missing rave_attribute.c reads the double held; [v] keeps its initial
    value [v0] when the attribute is not a double. *)
Definition RaveAttribute_getDouble (attr : RaveAttribute_t) (v0 : R) : R :=
  match attr with
  | AttrDouble v => v
  | _ => v0
  end.

(** Modelled from the spec: [RaveAttribute_setDouble(attr, v)] of the
    missing rave_attribute.c makes the attribute a double of value [v]. *)
Definition RaveAttribute_setDouble (attr : RaveAttribute_t) (v : R)
  : RaveAttribute_t := AttrDouble v.

(** Modelled from the spec: [RaveAttribute_getDoubleArray(attr, &darr,
    &nlen)] of the missing rave_attribute.c.  The design has the conversion
    of how/TXpower act on the elements of the attribute, so the pointer
    handed out is the array the attribute owns and a store through [darr] is
    a store into the attribute; [darr] starts as the null pointer and [nlen]
    as 0. *)
Definition RaveAttribute_getDoubleArray (attr : RaveAttribute_t)
  : list R * Z :=
  match attr with
  | AttrDoubleArray a => (a, Z.of_nat (List.length a))
  | _ => ([], 0%Z)
  end.

(** [darr[i] = x] *)
Fixpoint darr_store (darr : list R) (i : nat) (x : R) : list R :=
  match darr, i with
  | [], _ => []
  | _ :: rest, O => x :: rest
  | d :: rest, S i' => d :: darr_store rest i' x
  end.

(** [for (i = 0; i < nlen; i++) body]: [body] rewrites element [i] when the
    element is there. *)
Fixpoint darr_loop (body : R -> R) (i : nat) (count : nat) (darr : list R)
  : list R :=
  match count with
  | O => darr
  | S count' =>
      let darr' := match nth_error darr i with
                   | Some x => darr_store darr i (body x)
                   | None => darr
                   end in
      darr_loop body (S i) count' darr'
  end.

Local Open Scope R_scope.

(** [log10] and [pow] of the C library, the latter for a positive base, as
    functions on the reals: [c_pow 10 y] is positive for every [y], where
    the [pow] of the library underflows to zero for [y] below about -324. *)
Definition log10 (x : R) : R := ln x / ln 10.
Definition c_pow (x y : R) : R := Rpower x y.

Definition dBm_to_kW (v : R) : R := c_pow 10 ((v - 30) / 10) / 1000.
Definition kW_to_dBm (v : R) : R := 10 * log10 (1000 * v) + 30.

Definition name_is (lit : string) (attrname : list ascii) : bool :=
  (strcasecmp (cstr lit) attrname =? 0)%Z.

Section Versions.

(** [RaveIO_ODIM_Version] is an enum of rave_types.h, which is not among
    the sources: a version is its enumerator value, and the value of
    [RaveIO_ODIM_Version_2_4] is a parameter of what follows. *)
Variable RaveIO_ODIM_Version_2_4 : Z.

Definition convertHowAttributeToInternalRave
           (attrname : list ascii) (origversion : Z)
           (inattr : RaveAttribute_t) : Z * RaveAttribute_t :=
  if (origversion <? RaveIO_ODIM_Version_2_4)%Z then (1%Z, inattr)
  else if Format_eqb (RaveAttribute_getFormat inattr)
                     RaveAttribute_Format_Double then
    let v := RaveAttribute_getDouble inattr 0 in
    if name_is "how/gasattn" attrname then
      (1%Z, RaveAttribute_setDouble inattr (v * 1000))
    else if name_is "how/minrange" attrname
            || name_is "how/maxrange" attrname
            || name_is "how/melting_layer_top_A" attrname
            || name_is "how/melting_layer_bottom_A" attrname then
      (1%Z, RaveAttribute_setDouble inattr (v / 1000))
    else if name_is "how/nomTXpower" attrname
            || name_is "how/peakpwr" attrname
            || name_is "how/avgpwr" attrname then
      (1%Z, RaveAttribute_setDouble inattr (dBm_to_kW v))
    else (1%Z, inattr)
  else if Format_eqb (RaveAttribute_getFormat inattr)
                     RaveAttribute_Format_DoubleArray
          && name_is "how/TXpower" attrname then
    let '(darr, nlen) := RaveAttribute_getDoubleArray inattr in
    (1%Z, AttrDoubleArray (darr_loop dBm_to_kW 0 (Z.to_nat nlen) darr))
  else (1%Z, inattr).

Definition convertHowAttributeFromInternalRave
           (attrname : list ascii) (outversion : Z)
           (inattr : RaveAttribute_t) : Z * RaveAttribute_t :=
  if (outversion <? RaveIO_ODIM_Version_2_4)%Z then (1%Z, inattr)
  else if Format_eqb (RaveAttribute_getFormat inattr)
                     RaveAttribute_Format_Double then
    let v := RaveAttribute_getDouble inattr 0 in
    if name_is "how/gasattn" attrname then
      (1%Z, RaveAttribute_setDouble inattr (v / 1000))
    else if name_is "how/minrange" attrname
            || name_is "how/maxrange" attrname
            || name_is "how/melting_layer_top_A" attrname
            || name_is "how/melting_layer_bottom_A" attrname then
      (1%Z, RaveAttribute_setDouble inattr (v * 1000))
    else if name_is "how/nomTXpower" attrname
            || name_is "how/peakpwr" attrname
            || name_is "how/avgpwr" attrname then
      if Rlt_dec 0 v
      then (1%Z, RaveAttribute_setDouble inattr (kW_to_dBm v))
      else (1%Z, inattr)
    else (1%Z, inattr)
  else if Format_eqb (RaveAttribute_getFormat inattr)
                     RaveAttribute_Format_DoubleArray
          && name_is "how/TXpower" attrname then
    let '(darr, nlen) := RaveAttribute_getDoubleArray inattr in
    (1%Z, AttrDoubleArray
            (darr_loop (fun x => if Rlt_dec 0 x then kW_to_dBm x else x)
                       0 (Z.to_nat nlen) darr))
  else (1%Z, inattr).

(** An attribute written to a file of version [version] and read back
    from it: the write path, then the read path. *)
Definition write_then_read (attrname : list ascii) (version : Z)
           (attr : RaveAttribute_t) : RaveAttribute_t :=
  snd (convertHowAttributeToInternalRave attrname version
         (snd (convertHowAttributeFromInternalRave attrname version attr))).

(** The attributes of a [RaveObjectList_t], in the order of the list
    (rave_object_list.c is not among the sources): each is held with its
    name, which [RaveAttribute_getName] reads, and [RaveObjectList_get]
    hands out the attribute the list holds, so that a conversion of it is
    seen in the list. *)
Definition NamedAttribute : Type := (list ascii * RaveAttribute_t)%type.

(** Element [i] of the list after the body of the loop of
    [convertHowAttributesFromInternalRave]; [RaveObjectList_get] gives the
    null pointer outside the list, which the body skips. *)
Definition convert_at (outversion : Z) (attributes : list NamedAttribute)
           (i : nat) : list NamedAttribute :=
  match nth_error attributes i with
  | Some (name, attr) =>
      let attr' :=
        snd (convertHowAttributeFromInternalRave name outversion attr) in
      firstn i attributes ++ (name, attr') :: skipn (S i) attributes
  | None => attributes
  end.

Fixpoint convert_from (outversion : Z) (i count : nat)
         (attributes : list NamedAttribute) : list NamedAttribute :=
  match count with
  | O => attributes
  | S count' =>
      convert_from outversion (S i) count' (convert_at outversion attributes i)
  end.

(** The returned [int] and the list on return. *)
Definition convertHowAttributesFromInternalRave
           (attributes : list NamedAttribute) (outversion : Z)
  : Z * list NamedAttribute :=
  if (outversion <? RaveIO_ODIM_Version_2_4)%Z then (1%Z, attributes)
  else
    let nlen := Z.of_nat (List.length attributes) in
    (1%Z, convert_from outversion 0 (Z.to_nat nlen) attributes).

(** An attribute read from a file of version [version] and written back to
    one: the read path, then the write path. *)
Definition read_then_write (attrname : list ascii) (version : Z)
           (attr : RaveAttribute_t) : RaveAttribute_t :=
  snd (convertHowAttributeFromInternalRave attrname version
         (snd (convertHowAttributeToInternalRave attrname version attr))).

End Versions.

Local Open Scope Z_scope.

(** Conversion of an [int] to [size_t] (64 bits). *)
Definition size_of_int (n : Z) : Z := n mod 2 ^ 64.

(** [p += n] on a pointer into a string. *)
Definition advance (p : list ascii) (n : Z) : list ascii :=
  skipn (Z.to_nat n) p.

(** [source] and [id] are [None] for the null pointer.  The result is the
    returned [int] and the contents of [buf] on return.  [len] is an [int]:
    the two lengths are converted to it, [len + 1] is converted to [size_t]
    for the comparison with [buflen] (the overflow of [len + 1] at
    [INT_MAX], undefined in C, is outside the statements below). *)
Definition getIdFromSource (source id : option (list ascii))
           (buf : list ascii) (buflen : Z) : Z * list ascii :=
  match source, id with
  | Some source, Some id =>
      match strstr source id with
      | Some p =>
          let p := advance p (strlen id) in
          let len := int_of_size (strlen p) in
          let len := match strpbrk p (cstr ",") with
                     | Some pbrk => int_of_size (strlen p - strlen pbrk)
                     | None => len
                     end in
          if size_of_int (len + 1) <? buflen
          then (1, store (strncpy buf p (Z.to_nat (size_of_int len)))
                         (Z.to_nat len) NUL)
          else (0, buf)
      | None => (0, buf)
      end
  | _, _ => (0, buf)
  end.

Definition getNodOrCmtFromSource (source : option (list ascii))
           (buf : list ascii) (buflen : Z) : Z * list ascii :=
  let '(result, buf1) := getIdFromSource source (Some (cstr "NOD:")) buf buflen in
  if result =? 0
  then getIdFromSource source (Some (cstr "CMT:")) buf1 buflen
  else (result, buf1).

End OdimIoUtilities.

(** Attribute names of the transmitter powers kept in kW internally. *)
Definition power_names : list (list ascii) :=
  [cstr "how/nomTXpower"; cstr "how/peakpwr"; cstr "how/avgpwr"].

(** ** Vocabulary of the statements about source strings *)

(** [key] occurs in [source]. *)
Definition occurs (key source : list ascii) : Prop :=
  exists pre tail, source = (pre ++ key ++ tail)%list.

(** The first occurrence of [key] in [source] starts after [pre] and is
    followed by [tail]. *)
Definition first_occurrence (key source pre tail : list ascii) : Prop :=
  source = (pre ++ key ++ tail)%list /\
  forall pre' tail', source = (pre' ++ key ++ tail')%list ->
                     (List.length pre <= List.length pre')%nat.

Definition comma : ascii := ","%char.

(** [value] is what [tail] holds up to its first comma, or all of it when it
    has none. *)
Definition value_up_to_comma (tail value : list ascii) : Prop :=
  ~ In comma value /\
  (tail = value \/ exists rest, tail = (value ++ comma :: rest)%list).

(** Attribute names whose values are scaled by 1000 between the file and
    the internal unit. *)
Definition gasattn_name : list ascii := cstr "how/gasattn".

Definition range_names : list (list ascii) :=
  [cstr "how/minrange"; cstr "how/maxrange";
   cstr "how/melting_layer_top_A"; cstr "how/melting_layer_bottom_A"].

(** A name with its letters in lower case. *)
Definition lower_case (s : list ascii) : list ascii := map CString.tolower s.

(** What a caller reads from a buffer as a C string: the bytes before the
    first NUL. *)
Fixpoint c_string_in (buf : list ascii) : list ascii :=
  match buf with
  | [] => []
  | c :: rest =>
      if CString.char_eqb c CString.NUL then [] else c :: c_string_in rest
  end.

(** Scalar product of two vectors. *)
Definition dot (u v : vec3) : R :=
  let '(x, y, z) := u in
  let '(x', y', z') := v in (x * x' + y * y' + z * z')%R.

(** The azimuths sampled by [getBoundingBox], in degrees: 0, 20, ..., 340. *)
Definition sweep_azimuths : list Z :=
  map (fun k => (20 * Z.of_nat k)%Z) (seq 0 18).

(** Two objects with the same site frame. *)
Definition same_site (c c0 : Coordinates.t) : Prop :=
  site_p0 c = site_p0 c0 /\ site_eE c = site_eE c0 /\ site_eN c = site_eN c0.

(** The box holds the bin position of [c], read in degrees by [latDeg] and
    [lonDeg]. *)
Definition box_holds (latDeg lonDeg : Coordinates.t -> R)
           (box : Coordinates.Box) (c : Coordinates.t) : Prop :=
  (Coordinates.latMin box <= latDeg c <= Coordinates.latMax box)%R /\
  (Coordinates.lonMin box <= lonDeg c <= Coordinates.lonMax box)%R.

(** [box'] extends [box] on its four sides. *)
Definition box_wider (box box' : Coordinates.Box) : Prop :=
  (Coordinates.latMin box' <= Coordinates.latMin box)%R /\
  (Coordinates.latMax box <= Coordinates.latMax box')%R /\
  (Coordinates.lonMin box' <= Coordinates.lonMin box)%R /\
  (Coordinates.lonMax box <= Coordinates.lonMax box')%R.

(** The bin of the sweep at the azimuth of [i] degrees. *)
Definition sweep_sample (range : R) (c0 : Coordinates.t) (i : Z)
  : Coordinates.t :=
  Coordinates.setBinPosition (IZR i * PI / 180) range c0.

(** The names under which [convertHowAttributeToInternalRave] and
    [convertHowAttributeFromInternalRave] rewrite a double. *)
Definition converted_double_names : list (list ascii) :=
  gasattn_name :: range_names ++ power_names.

(** * Properties *)

(** ** Machine integers in range *)

Lemma int_of_size_small (n : Z) :
  (0 <= n < 2 ^ 31)%Z -> int_of_size n = n.
Proof.
  intros H. unfold int_of_size.
  rewrite Z.mod_small; lia.
Qed.

(** ** The elevation search, [Geometry.findClosestElevations] *)

Section ClosestElevations.

Import Geometry.
Local Open Scope Q_scope.

Lemma Qlt_bool_iff (x y : Q) : Qlt_bool x y = true <-> x < y.
Proof.
  unfold Qlt_bool. rewrite negb_true_iff. split; intros H.
  - apply Qnot_le_lt. intros Hle. apply Qle_bool_iff in Hle. congruence.
  - destruct (Qle_bool y x) eqn:E; [|reflexivity].
    apply Qle_bool_iff in E. exfalso. exact (Qlt_not_le _ _ H E).
Qed.

(** The target of the search. *)
Variable t : Q.

Lemma nth_error_snoc_old {A} (l : list A) (x : A) (i : nat) (y : A) :
  nth_error l i = Some y -> nth_error (l ++ [x]) i = Some y.
Proof.
  intros H. rewrite nth_error_app1; [exact H|].
  apply nth_error_Some. congruence.
Qed.

Lemma nth_error_snoc_new {A} (l : list A) (x : A) :
  nth_error (l ++ [x]) (List.length l) = Some x.
Proof.
  rewrite nth_error_app2 by lia. rewrite Nat.sub_diag. reflexivity.
Qed.

Lemma closest_step_lower seen st e :
  (Z.of_nat (List.length seen) < 2 ^ 31)%Z ->
  inside_bounds e ->
  lower_ok t seen st ->
  lower_ok t (seen ++ [e]) (closest_step t st (List.length seen) e).
Proof.
  intros Hlen [Hlo Hhi] Hinv.
  assert (Hlowfields :
    forall st1 : Closest,
      elevationIndexLower
        (if Qlt_bool e (elevationAngleUpper st1) && Qle_bool t e
         then {| elevationIndexLower := elevationIndexLower st1;
                 elevationAngleLower := elevationAngleLower st1;
                 elevationIndexUpper := int_of_size (Z.of_nat (List.length seen));
                 elevationAngleUpper := e |}
         else st1) = elevationIndexLower st1 /\
      elevationAngleLower
        (if Qlt_bool e (elevationAngleUpper st1) && Qle_bool t e
         then {| elevationIndexLower := elevationIndexLower st1;
                 elevationAngleLower := elevationAngleLower st1;
                 elevationIndexUpper := int_of_size (Z.of_nat (List.length seen));
                 elevationAngleUpper := e |}
         else st1) = elevationAngleLower st1).
  { intros st1. destruct (_ && _); split; reflexivity. }
  unfold closest_step, lower_ok.
  match goal with |- context [if ?c then ?a else st] =>
    set (st1 := if c then a else st) end.
  destruct (Hlowfields st1) as [-> ->]. clear Hlowfields.
  subst st1.
  destruct (Qlt_bool (elevationAngleLower st) e && Qle_bool e t) eqn:Hc.
  - (* the element becomes the lower neighbour *)
    apply andb_true_iff in Hc. destruct Hc as [Hgt Hle].
    apply Qlt_bool_iff in Hgt. apply Qle_bool_iff in Hle.
    right. exists (List.length seen), e. cbn.
    repeat split.
    + apply int_of_size_small. lia.
    + apply nth_error_snoc_new.
    + exact Hle.
    + intros e' Hin He'. apply in_app_or in Hin.
      destruct Hin as [Hin | [<- | []]]; [|apply Qle_refl].
      destruct Hinv as [(_ & _ & Hnone) | (l & el & _ & _ & Hang & _ & Hmax)].
      * exfalso. exact (Hnone _ Hin He').
      * rewrite Hang in Hgt.
        apply Qle_trans with el; [auto | apply Qlt_le_weak; exact Hgt].
  - (* the lower pair is kept *)
    apply andb_false_iff in Hc.
    destruct Hinv as [(Hidx & Hang & Hnone) | (l & el & Hidx & Hnth & Hang & Hel & Hmax)].
    + left. repeat split; auto.
      intros e' Hin He'. apply in_app_or in Hin.
      destruct Hin as [Hin | [<- | []]]; [exact (Hnone _ Hin He')|].
      destruct Hc as [Hc | Hc].
      * rewrite Hang in Hc.
        apply Qlt_bool_iff in Hlo. congruence.
      * apply Qle_bool_iff in He'. congruence.
    + right. exists l, el. repeat split; auto.
      * apply nth_error_snoc_old. exact Hnth.
      * intros e' Hin He'. apply in_app_or in Hin.
        destruct Hin as [Hin | [<- | []]]; [auto|].
        destruct Hc as [Hc | Hc].
        -- rewrite Hang in Hc.
           destruct (Qlt_le_dec el e) as [Hlt | Hge]; [|exact Hge].
           apply Qlt_bool_iff in Hlt. congruence.
        -- apply Qle_bool_iff in He'. congruence.
Qed.

Lemma closest_step_upper seen st e :
  (Z.of_nat (List.length seen) < 2 ^ 31)%Z ->
  inside_bounds e ->
  upper_ok t seen st ->
  upper_ok t (seen ++ [e]) (closest_step t st (List.length seen) e).
Proof.
  intros Hlen [Hlo Hhi] Hinv.
  unfold closest_step.
  match goal with |- context [if ?c then ?a else st] =>
    set (st1 := if c then a else st) end.
  assert (Hup1 : elevationIndexUpper st1 = elevationIndexUpper st /\
                 elevationAngleUpper st1 = elevationAngleUpper st).
  { subst st1. destruct (_ && _); split; reflexivity. }
  destruct Hup1 as [Hi1 Ha1].
  assert (Hinv1 : upper_ok t seen st1).
  { unfold upper_ok. rewrite Hi1, Ha1. exact Hinv. }
  clearbody st1. clear Hinv Hi1 Ha1 st.
  unfold upper_ok.
  destruct (Qlt_bool e (elevationAngleUpper st1) && Qle_bool t e) eqn:Hc.
  - apply andb_true_iff in Hc. destruct Hc as [Hlt Hge].
    apply Qlt_bool_iff in Hlt. apply Qle_bool_iff in Hge.
    right. exists (List.length seen), e. cbn.
    repeat split.
    + apply int_of_size_small. lia.
    + apply nth_error_snoc_new.
    + exact Hge.
    + intros e' Hin He'. apply in_app_or in Hin.
      destruct Hin as [Hin | [<- | []]]; [|apply Qle_refl].
      destruct Hinv1 as [(_ & _ & Hnone) | (u & eu & _ & _ & Hang & _ & Hmin)].
      * exfalso. exact (Hnone _ Hin He').
      * rewrite Hang in Hlt.
        apply Qle_trans with eu; [apply Qlt_le_weak; exact Hlt | auto].
  - apply andb_false_iff in Hc.
    destruct Hinv1 as [(Hidx & Hang & Hnone) | (u & eu & Hidx & Hnth & Hang & Heu & Hmin)].
    + left. repeat split; auto.
      intros e' Hin He'. apply in_app_or in Hin.
      destruct Hin as [Hin | [<- | []]]; [exact (Hnone _ Hin He')|].
      destruct Hc as [Hc | Hc].
      * rewrite Hang in Hc.
        apply Qlt_bool_iff in Hhi. congruence.
      * apply Qle_bool_iff in He'. congruence.
    + right. exists u, eu. repeat split; auto.
      * apply nth_error_snoc_old. exact Hnth.
      * intros e' Hin He'. apply in_app_or in Hin.
        destruct Hin as [Hin | [<- | []]]; [auto|].
        destruct Hc as [Hc | Hc].
        -- rewrite Hang in Hc.
           destruct (Qlt_le_dec e eu) as [Hlt | Hge]; [|exact Hge].
           apply Qlt_bool_iff in Hlt. congruence.
        -- apply Qle_bool_iff in He'. congruence.
Qed.

Lemma closest_loop_ok es : forall seen st,
  (Z.of_nat (List.length seen + List.length es) <= 2 ^ 31)%Z ->
  Forall inside_bounds es ->
  lower_ok t seen st -> upper_ok t seen st ->
  lower_ok t (seen ++ es) (closest_loop t (List.length seen) es st) /\
  upper_ok t (seen ++ es) (closest_loop t (List.length seen) es st).
Proof.
  induction es as [|e es IH]; intros seen st Hlen Hall Hlo Hup.
  - rewrite app_nil_r. cbn. split; assumption.
  - inversion Hall as [|? ? He Hes]; subst.
    cbn [closest_loop].
    cbn [List.length] in Hlen.
    replace (seen ++ e :: es)%list with ((seen ++ [e]) ++ es)%list
      by (rewrite <- app_assoc; reflexivity).
    replace (S (List.length seen)) with (List.length (seen ++ [e])%list)
      by (rewrite length_app; cbn; lia).
    apply IH.
    + rewrite length_app. cbn. lia.
    + exact Hes.
    + apply closest_step_lower; [lia | exact He | exact Hlo].
    + apply closest_step_upper; [lia | exact He | exact Hup].
Qed.

Lemma findClosestElevations_ok (S : list Q) :
  (Z.of_nat (List.length S) <= 2 ^ 31)%Z ->
  Forall inside_bounds S ->
  lower_ok t S (findClosestElevations S t) /\
  upper_ok t S (findClosestElevations S t).
Proof.
  intros Hlen Hall. unfold findClosestElevations.
  apply (closest_loop_ok S [] closest_init); auto.
  - left. cbn. repeat split; auto.
  - left. cbn. repeat split; auto.
Qed.


Lemma fold_left_Qmin_le (r : list Q) : forall x,
  fold_left Qmin r x <= t <-> x <= t \/ exists e, In e r /\ e <= t.
Proof.
  induction r as [|y r IH]; intros x; cbn [fold_left].
  - split; [auto | intros [H | (e & [] & _)]; exact H].
  - rewrite IH, Q.min_le_iff. split.
    + intros [[H | H] | (e & Hin & He)]; eauto using in_eq, in_cons.
    + intros [H | (e & [<- | Hin] & He)]; eauto.
Qed.

Lemma fold_left_Qmax_ge (r : list Q) : forall x,
  t <= fold_left Qmax r x <-> t <= x \/ exists e, In e r /\ t <= e.
Proof.
  induction r as [|y r IH]; intros x; cbn [fold_left].
  - split; [auto | intros [H | (e & [] & _)]; exact H].
  - rewrite IH, Q.max_le_iff. split.
    + intros [[H | H] | (e & Hin & He)]; eauto using in_eq, in_cons.
    + intros [H | (e & [<- | Hin] & He)]; eauto.
Qed.

Lemma min_elevation_le (S : list Q) :
  S <> [] -> (min_elevation S <= t <-> exists e, In e S /\ e <= t).
Proof.
  destruct S as [|x r]; [congruence|]. intros _. cbn [min_elevation].
  rewrite fold_left_Qmin_le. split.
  - intros [H | (e & Hin & He)]; eauto using in_eq, in_cons.
  - intros (e & [<- | Hin] & He); eauto.
Qed.

Lemma max_elevation_ge (S : list Q) :
  S <> [] -> (t <= max_elevation S <-> exists e, In e S /\ t <= e).
Proof.
  destruct S as [|x r]; [congruence|]. intros _. cbn [max_elevation].
  rewrite fold_left_Qmax_ge. split.
  - intros [H | (e & Hin & He)]; eauto using in_eq, in_cons.
  - intros (e & [<- | Hin] & He); eauto.
Qed.

End ClosestElevations.

(** Inside its search bounds the search brackets the target.  For every
    nonempty, strictly ascending elevation list [S] whose angles all lie
    strictly between the two initial bounds -(float)(pi/2) and +(float)(pi/2)
    of the search, with at most 2^31 elements (every index fits an [int]),
    and for every target [t]: both returned indices differ from -1 exactly
    when [t] lies within [min S, max S]; the lower index is -1 exactly when
    no element is [<= t], the upper index is -1 exactly when no element is
    [>= t]; a valid lower index points to the greatest element [<= t] and a
    valid upper index to the smallest element [>= t], the angles returned
    with them being those elements; and when both are valid,
    [S[l] <= t <= S[u]] and no element of [S] lies strictly between [S[l]]
    and [S[u]].  A list that holds a scan on one of the bounds is outside
    this statement. *)
Theorem findClosestElevations_brackets (S : list Q) (t : Q) :
  S <> [] ->
  strictly_ascending S ->
  Forall inside_bounds S ->
  (Z.of_nat (List.length S) <= 2 ^ 31)%Z ->
  let r := Geometry.findClosestElevations S t in
  let l := Geometry.elevationIndexLower r in
  let u := Geometry.elevationIndexUpper r in
  ((l <> (-1)%Z /\ u <> (-1)%Z) <-> within_elevations S t) /\
  (l = (-1)%Z <-> forall e, In e S -> ~ (e <= t)%Q) /\
  (u = (-1)%Z <-> forall e, In e S -> ~ (t <= e)%Q) /\
  (l <> (-1)%Z ->
   exists el, (0 <= l)%Z /\ nth_error S (Z.to_nat l) = Some el /\
              Geometry.elevationAngleLower r = el /\ (el <= t)%Q /\
              forall e, In e S -> (e <= t)%Q -> (e <= el)%Q) /\
  (u <> (-1)%Z ->
   exists eu, (0 <= u)%Z /\ nth_error S (Z.to_nat u) = Some eu /\
              Geometry.elevationAngleUpper r = eu /\ (t <= eu)%Q /\
              forall e, In e S -> (t <= e)%Q -> (eu <= e)%Q) /\
  (l <> (-1)%Z -> u <> (-1)%Z ->
   exists el eu, nth_error S (Z.to_nat l) = Some el /\
                 nth_error S (Z.to_nat u) = Some eu /\
                 (el <= t)%Q /\ (t <= eu)%Q /\
                 forall e, In e S -> ~ (el < e /\ e < eu)%Q).
Proof.
  intros Hne _ Hall Hlen r l u.
  destruct (findClosestElevations_ok t S Hlen Hall) as [Hlo Hup].
  fold r in Hlo, Hup. unfold lower_ok in Hlo. unfold upper_ok in Hup.
  fold l in Hlo. fold u in Hup.
  assert (Hl : l = (-1)%Z <-> forall e, In e S -> ~ (e <= t)%Q).
  { destruct Hlo as [(Hidx & _ & Hnone) | (l' & el & Hidx & Hnth & _ & Hel & _)].
    - tauto.
    - split; [lia|]. intros Hnone. exfalso.
      exact (Hnone el (nth_error_In _ _ Hnth) Hel). }
  assert (Hu : u = (-1)%Z <-> forall e, In e S -> ~ (t <= e)%Q).
  { destruct Hup as [(Hidx & _ & Hnone) | (u' & eu & Hidx & Hnth & _ & Heu & _)].
    - tauto.
    - split; [lia|]. intros Hnone. exfalso.
      exact (Hnone eu (nth_error_In _ _ Hnth) Heu). }
  assert (Hl' : l <> (-1)%Z ->
   exists el, (0 <= l)%Z /\ nth_error S (Z.to_nat l) = Some el /\
              Geometry.elevationAngleLower r = el /\ (el <= t)%Q /\
              forall e, In e S -> (e <= t)%Q -> (e <= el)%Q).
  { intros Hv.
    destruct Hlo as [(Hidx & _) | (l' & el & Hidx & Hnth & Hang & Hel & Hmax)];
      [congruence|].
    exists el. rewrite Hidx, Nat2Z.id. repeat split; auto. lia. }
  assert (Hu' : u <> (-1)%Z ->
   exists eu, (0 <= u)%Z /\ nth_error S (Z.to_nat u) = Some eu /\
              Geometry.elevationAngleUpper r = eu /\ (t <= eu)%Q /\
              forall e, In e S -> (t <= e)%Q -> (eu <= e)%Q).
  { intros Hv.
    destruct Hup as [(Hidx & _) | (u' & eu & Hidx & Hnth & Hang & Heu & Hmin)];
      [congruence|].
    exists eu. rewrite Hidx, Nat2Z.id. repeat split; auto. lia. }
  split; [|split; [exact Hl|split; [exact Hu|split; [exact Hl'|split; [exact Hu'|]]]]].
  - split.
    + (* both indices valid: the target is inside *)
      intros [Hlv Huv]. split.
      * apply min_elevation_le; [exact Hne|].
        destruct (Hl' Hlv) as (el & _ & Hnth & _ & Hel & _).
        exists el. split; [exact (nth_error_In _ _ Hnth) | exact Hel].
      * apply max_elevation_ge; [exact Hne|].
        destruct (Hu' Huv) as (eu & _ & Hnth & _ & Heu & _).
        exists eu. split; [exact (nth_error_In _ _ Hnth) | exact Heu].
    + intros [Hmin Hmax]. split; intros Habs.
      * apply min_elevation_le in Hmin; [|exact Hne].
        destruct Hmin as (e & Hin & He).
        exact (proj1 Hl Habs e Hin He).
      * apply max_elevation_ge in Hmax; [|exact Hne].
        destruct Hmax as (e & Hin & He).
        exact (proj1 Hu Habs e Hin He).
  - intros Hlv Huv.
    destruct (Hl' Hlv) as (el & _ & Hnl & _ & Hel & Hmax).
    destruct (Hu' Huv) as (eu & _ & Hnu & _ & Heu & Hmin).
    exists el, eu. repeat split; auto.
    intros e Hin [H1 H2].
    destruct (Qlt_le_dec t e) as [Hte | Het].
    + apply (Qlt_not_le _ _ H2). apply Hmin; [exact Hin|].
      apply Qlt_le_weak. exact Hte.
    + apply (Qlt_not_le _ _ H1). apply Hmax; assumption.
Qed.

Lemma findClosestElevations_brackets_witness :
  Geometry.elevationIndexLower
    (Geometry.findClosestElevations [1 # 100; 2 # 100; 3 # 100] (25 # 1000))
  = 1%Z /\
  Geometry.elevationIndexUpper
    (Geometry.findClosestElevations [1 # 100; 2 # 100; 3 # 100] (25 # 1000))
  = 2%Z /\
  exists el eu,
    nth_error [1 # 100; 2 # 100; 3 # 100] 1 = Some el /\
    nth_error [1 # 100; 2 # 100; 3 # 100] 2 = Some eu /\
    (el <= 25 # 1000)%Q /\ (25 # 1000 <= eu)%Q /\
    forall e, In e [1 # 100; 2 # 100; 3 # 100] -> ~ (el < e /\ e < eu)%Q.
Proof.
  set (S := [1 # 100; 2 # 100; 3 # 100]).
  set (t := 25 # 1000).
  split; [reflexivity|]. split; [reflexivity|].
  assert (Hne : S <> []) by discriminate.
  assert (Hasc : strictly_ascending S).
  { cbn. repeat split; reflexivity. }
  assert (Hall : Forall inside_bounds S).
  { repeat constructor; reflexivity. }
  assert (Hlen : (Z.of_nat (List.length S) <= 2 ^ 31)%Z).
  { cbn. lia. }
  pose proof (findClosestElevations_brackets S t Hne Hasc Hall Hlen) as H.
  cbv zeta in H. destruct H as (_ & _ & _ & _ & _ & H).
  apply H; discriminate.
Defined.

(** C1.  The search misses the vertical scan.  The elevation 90 degrees is
    stored as (float)(pi/2), the very value the upper bound starts from and
    which also stands for "no upper scan yet", so the strict test
    [e < elevationAngleUpper] never accepts it.  With the scans at 1/64 rad
    and at 90 degrees and the target 1/2 rad, the list is nonempty and
    strictly ascending, the target lies within [min S, max S] and the scan
    at index 1 is above it; the code returns the lower index 0, but the upper
    index -1 with the upper angle still at its initial value, where C1 has
    the valid pair (0, 1) returned.  With the vertical scan alone and the
    target on it, the lower index is 0 and the upper index is again -1. *)
Lemma findClosestElevations_misses_vertical_scan :
  [1 # 64; Geometry.M_PI_2_float] <> [] /\
  strictly_ascending [1 # 64; Geometry.M_PI_2_float] /\
  within_elevations [1 # 64; Geometry.M_PI_2_float] (1 # 2) /\
  nth_error [1 # 64; Geometry.M_PI_2_float] 1 = Some Geometry.M_PI_2_float /\
  (1 # 2 <= Geometry.M_PI_2_float)%Q /\
  Geometry.findClosestElevations [1 # 64; Geometry.M_PI_2_float] (1 # 2)
  = Geometry.mkClosest 0 (1 # 64) (-1) Geometry.M_PI_2_float /\
  within_elevations [Geometry.M_PI_2_float] Geometry.M_PI_2_float /\
  Geometry.findClosestElevations [Geometry.M_PI_2_float] Geometry.M_PI_2_float
  = Geometry.mkClosest 0 Geometry.M_PI_2_float (-1) Geometry.M_PI_2_float.
Proof.
  repeat split; try reflexivity; try discriminate.
Qed.


(** ** The closed-form geometry *)

Section GeometryFormulas.

Import Geometry.
Local Open Scope R_scope.

Lemma EARTH_RADIUS_43_pos : 0 < EARTH_RADIUS_43.
Proof. unfold EARTH_RADIUS_43, EARTH_RADIUSi. lra. Qed.

Lemma cos_quarter_turn (eta : R) : cos (M_PI / 2 + eta) = - sin eta.
Proof.
  unfold M_PI. rewrite cos_plus, cos_PI2, sin_PI2. ring.
Qed.

Lemma sin_quarter_turn (eta : R) : sin (eta + M_PI / 2) = cos eta.
Proof.
  unfold M_PI. rewrite sin_plus, cos_PI2, sin_PI2. ring.
Qed.

Lemma cos_quarter_turn' (eta : R) : cos (eta + M_PI / 2) = - sin eta.
Proof.
  unfold M_PI. rewrite cos_plus, cos_PI2, sin_PI2. ring.
Qed.

(** The squared distance from the Earth centre, completed to squares. *)
Lemma centre_distance_sq (a b eta : R) :
  a * a + b * b - 2 * a * b * cos (M_PI / 2 + eta)
  = (b + a * sin eta) * (b + a * sin eta) + (a * cos eta) * (a * cos eta).
Proof.
  rewrite cos_quarter_turn.
  pose proof (sin2_cos2 eta) as H. unfold Rsqr in H.
  replace (a * a) with (a * a * (sin eta * sin eta + cos eta * cos eta))
    by (rewrite H; ring).
  ring.
Qed.

Lemma heightFromEtaBeam_centre (eta b : R) :
  EARTH_RADIUS_43 + heightFromEtaBeam eta b
  = sqrt ((b + EARTH_RADIUS_43 * sin eta) * (b + EARTH_RADIUS_43 * sin eta)
          + (EARTH_RADIUS_43 * cos eta) * (EARTH_RADIUS_43 * cos eta)).
Proof.
  unfold heightFromEtaBeam. cbv zeta.
  rewrite centre_distance_sq. ring.
Qed.

(** Sine rule inverted: the general identity behind the round trip. *)
Lemma beamFromEtaH_inverts (eta b : R) :
  0 < cos eta -> 0 <= b + EARTH_RADIUS_43 * sin eta ->
  beamFromEtaH eta (heightFromEtaBeam eta b) = b.
Proof.
  intros Hk Hy.
  pose proof EARTH_RADIUS_43_pos as Ha.
  unfold beamFromEtaH. cbv zeta.
  rewrite heightFromEtaBeam_centre.
  set (a := EARTH_RADIUS_43) in *.
  set (s := sin eta) in *. set (k := cos eta) in *.
  set (y := b + a * s) in *.
  set (c := sqrt (y * y + a * k * (a * k))).
  assert (Hakpos : 0 < a * k) by (apply Rmult_lt_0_compat; assumption).
  assert (Hyy : 0 <= y * y) by (apply Rle_0_sqr).
  assert (Hkk : 0 < a * k * (a * k)) by (apply Rmult_lt_0_compat; assumption).
  assert (Hc2 : c * c = y * y + a * k * (a * k)).
  { unfold c. apply sqrt_sqrt. lra. }
  assert (Hcpos : 0 < c).
  { unfold c. apply sqrt_lt_R0. lra. }
  assert (Hak : a * k <= c).
  { destruct (Rle_lt_dec (a * k) c) as [H | H]; [exact H|].
    exfalso.
    assert (c * c < a * k * (a * k)) by (apply Rmult_le_0_lt_compat; lra).
    lra. }
  rewrite sin_quarter_turn. fold k.
  set (x := a * k / c).
  assert (Hx : -1 <= x <= 1).
  { unfold x. split.
    - apply Rle_trans with 0; [lra|].
      apply Rmult_le_pos; [nra | left; apply Rinv_0_lt_compat; exact Hcpos].
    - apply Rmult_le_reg_r with c; [exact Hcpos|].
      unfold Rdiv. rewrite Rmult_assoc, Rinv_l by lra. lra. }
  replace (M_PI - (eta + M_PI / 2) - asin x)
    with (PI - ((eta + M_PI / 2) + asin x)) by (unfold M_PI; ring).
  rewrite sin_PI_x, sin_plus, sin_quarter_turn, cos_quarter_turn'.
  rewrite sin_asin, cos_asin by exact Hx.
  fold s k.
  assert (Hsq : sqrt (1 - x²) = y / c).
  { replace (1 - x²) with ((y / c) * (y / c)).
    - apply sqrt_square.
      apply Rmult_le_pos; [exact Hy | left; apply Rinv_0_lt_compat; exact Hcpos].
    - assert (Hy2 : y * y = c * c - a * k * (a * k)) by lra.
      transitivity ((c * c - a * k * (a * k)) / (c * c)).
      + rewrite <- Hy2. field. lra.
      + unfold x, Rsqr. field. lra. }
  rewrite Hsq. unfold x, y. field. split; lra.
Qed.

End GeometryFormulas.

(** C2.  For every elevation [eta] in [0, 60 degrees] and every slant range
    [b] in [1 km, 250 km], [beamFromEtaH eta (heightFromEtaBeam eta b)] is
    [b], hence within 1 m of [b]; and [heightFromEtaBeam eta] gives back the
    altitude from that slant range: on this domain the two functions are
    inverse to each other. *)
Theorem beamFromEtaH_heightFromEtaBeam (eta b : R) :
  (0 <= eta <= 60 * (PI / 180))%R ->
  (1000 <= b <= 250000)%R ->
  Geometry.beamFromEtaH eta (Geometry.heightFromEtaBeam eta b) = b /\
  (Rabs (Geometry.beamFromEtaH eta (Geometry.heightFromEtaBeam eta b) - b) <= 1)%R /\
  Geometry.heightFromEtaBeam eta
    (Geometry.beamFromEtaH eta (Geometry.heightFromEtaBeam eta b))
  = Geometry.heightFromEtaBeam eta b.
Proof.
  intros Heta Hb.
  pose proof PI_RGT_0 as Hpi.
  assert (Heq : Geometry.beamFromEtaH eta (Geometry.heightFromEtaBeam eta b) = b).
  { apply beamFromEtaH_inverts.
    - apply cos_gt_0; lra.
    - assert (0 <= sin eta)%R by (apply sin_ge_0; lra).
      pose proof EARTH_RADIUS_43_pos. nra. }
  split; [exact Heq|].
  rewrite Heq. split; [|reflexivity].
  replace (b - b)%R with 0%R by ring. rewrite Rabs_R0. lra.
Qed.

Lemma beamFromEtaH_heightFromEtaBeam_witness :
  Geometry.beamFromEtaH 0 (Geometry.heightFromEtaBeam 0 1000) = 1000%R.
Proof.
  apply (beamFromEtaH_heightFromEtaBeam 0 1000).
  - pose proof PI_RGT_0. lra.
  - lra.
Defined.


Section Monotone.
Import Geometry.
Local Open Scope R_scope.





End Monotone.




(** C4.  For every elevation [eta] and ground distance [g],
    [heightFromEtaGround eta g] is [heightFromEtaBeta eta (g / (2 a))] with
    [a] the effective Earth radius; it is not the beta variant at [g / a]:
    the two differ at [eta = 0], [g = 2 a pi / 3]. *)
Theorem heightFromEtaGround_is_beta_at_half_angle :
  (forall eta g : R,
      Geometry.heightFromEtaGround eta g
      = Geometry.heightFromEtaBeta eta (g / (2 * Geometry.EARTH_RADIUS_43))%R) /\
  Geometry.heightFromEtaGround 0 (2 * Geometry.EARTH_RADIUS_43 * (PI / 3))
  <> Geometry.heightFromEtaBeta 0
       (2 * Geometry.EARTH_RADIUS_43 * (PI / 3) / Geometry.EARTH_RADIUS_43)%R.
Proof.
  pose proof EARTH_RADIUS_43_pos as Ha.
  split.
  - intros eta g. unfold Geometry.heightFromEtaGround, Geometry.heightFromEtaBeta.
    cbv zeta.
    replace (Geometry.EARTH_RADIUS_43 * 2)%R with (2 * Geometry.EARTH_RADIUS_43)%R
      by apply Rmult_comm.
    rewrite (Rplus_comm eta). reflexivity.
  - unfold Geometry.heightFromEtaGround, Geometry.heightFromEtaBeta. cbv zeta.
    set (a := Geometry.EARTH_RADIUS_43) in *.
    replace (0 + 2 * a * (PI / 3) / (a * 2))%R with (PI / 3)%R by (field; lra).
    replace (2 * a * (PI / 3) / a + 0)%R with (2 * (PI / 3))%R by (field; lra).
    rewrite cos_0, cos_PI3, cos_2PI3.
    intros H. 
    replace (a * (1 / (1 / 2) - 1))%R with a in H by field.
    replace (a * (1 / (-1 / 2) - 1))%R with (- 3 * a)%R in H by field.
    lra.
Qed.

(** ** Site coordinates *)

(** The frame cached by [origin]: the site vector and the unit vectors to
    the east and to the north. *)
Lemma origin_site_frame (theta phi : R) (c : Coordinates.t) :
  site_p0 (Coordinates.origin theta phi c)
  = vscale Coordinates.EARTH_RADIUS
      (cos phi * cos theta, sin phi * cos theta, sin theta)%R /\
  site_eE (Coordinates.origin theta phi c) = (- sin phi, cos phi, 0)%R /\
  site_eN (Coordinates.origin theta phi c)
  = (- cos phi * sin theta, - sin phi * sin theta, cos theta)%R /\
  bin_p (Coordinates.origin theta phi c) = bin_p c.
Proof.
  unfold site_p0, site_eE, site_eN, bin_p, vscale, Coordinates.origin.
  cbn. repeat split.
  apply (f_equal2 pair); [apply (f_equal2 pair)|]; ring.
Qed.

(** C3.  For every azimuth and range, [setBinPosition] leaves the bin
    position [p = p0 cos(range/(2R)) + eE range sin(azimuth)
    + eN range cos(azimuth)], with [R] the spherical Earth radius 6371000 m,
    which is not the effective radius [EARTH_RADIUS_43]; the bin longitude is
    [atan2(p_y, p_x)] and the bin latitude [asin(p_z / R)]; the site vectors
    are unchanged. *)
Theorem setBinPosition_spec (azimuth range : R) (c : Coordinates.t) :
  let c' := Coordinates.setBinPosition azimuth range c in
  bin_p c' = spec_bin_position Coordinates.EARTH_RADIUS c azimuth range /\
  Coordinates.phiBin c' = Coordinates.atan2 (Coordinates.p2 c') (Coordinates.p1 c') /\
  Coordinates.thetaBin c'
  = asin (Coordinates.p3 c' / Coordinates.EARTH_RADIUS) /\
  Coordinates.EARTH_RADIUS = 6371000%R /\
  Coordinates.EARTH_RADIUS <> Geometry.EARTH_RADIUS_43 /\
  site_p0 c' = site_p0 c /\ site_eE c' = site_eE c /\ site_eN c' = site_eN c.
Proof.
  cbv zeta. repeat split.
  - unfold bin_p, spec_bin_position, Coordinates.setBinPosition,
      site_p0, site_eE, site_eN, vadd, vscale.
    cbn [Coordinates.p1 Coordinates.p2 Coordinates.p3].
    replace (2 * Coordinates.EARTH_RADIUS)%R with (Coordinates.EARTH_RADIUS * 2)%R
      by apply Rmult_comm.
    f_equal; [f_equal|]; ring.
  - unfold Coordinates.EARTH_RADIUS, Geometry.EARTH_RADIUS_43,
      Geometry.EARTH_RADIUSi. lra.
Qed.


(** ** Unit conversions of the how attributes *)

Section HowAttributes.

Import CString OdimIoUtilities.
Local Open Scope R_scope.

(** Evaluate the name tests on literal attribute names. *)
Ltac eval_names :=
  repeat match goal with
         | |- context [name_is ?lit (cstr ?s)] =>
             let b := eval vm_compute in (name_is lit (cstr s)) in
             change (name_is lit (cstr s)) with b
         end;
  cbn [orb andb].

Lemma darr_store_app (pre rest : list R) (x y : R) :
  darr_store (pre ++ x :: rest) (List.length pre) y = (pre ++ y :: rest)%list.
Proof.
  induction pre as [|p pre IH]; cbn; [reflexivity|].
  rewrite IH. reflexivity.
Qed.

Lemma darr_loop_app (body : R -> R) (rest : list R) : forall pre : list R,
  darr_loop body (List.length pre) (List.length rest) (pre ++ rest)
  = (pre ++ map body rest)%list.
Proof.
  induction rest as [|x rest IH]; intros pre; cbn [darr_loop List.length map].
  - reflexivity.
  - rewrite nth_error_app2 by lia. rewrite Nat.sub_diag. cbn [nth_error].
    rewrite darr_store_app.
    replace (pre ++ body x :: rest)%list with ((pre ++ [body x]) ++ rest)%list
      by (rewrite <- app_assoc; reflexivity).
    replace (S (List.length pre)) with (List.length (pre ++ [body x])%list)
      by (rewrite length_app; cbn; lia).
    rewrite IH. rewrite <- app_assoc. reflexivity.
Qed.

(** The in-place loop over the array rewrites every element by [body]. *)
Lemma darr_loop_map (body : R -> R) (a : list R) :
  darr_loop body 0 (Z.to_nat (Z.of_nat (List.length a))) a = map body a.
Proof.
  rewrite Nat2Z.id. exact (darr_loop_app body a []).
Qed.

Lemma ln_10_pos : 0 < ln 10.
Proof. rewrite <- ln_1. apply ln_increasing; lra. Qed.

Lemma dBm_to_kW_pos (v : R) : 0 < dBm_to_kW v.
Proof.
  unfold dBm_to_kW, c_pow, Rpower.
  apply Rmult_lt_0_compat; [apply exp_pos | lra].
Qed.

Variable RaveIO_ODIM_Version_2_4 : Z.

Lemma convertFrom_power (attrname : list ascii) (version : Z) (v : R) :
  In attrname power_names ->
  (RaveIO_ODIM_Version_2_4 <= version)%Z ->
  convertHowAttributeFromInternalRave RaveIO_ODIM_Version_2_4 attrname version
    (AttrDouble v)
  = (1%Z, AttrDouble (if Rlt_dec 0 v then kW_to_dBm v else v)).
Proof.
  intros Hname Hver.
  unfold convertHowAttributeFromInternalRave.
  rewrite (proj2 (Z.ltb_ge _ _) Hver).
  cbn [RaveAttribute_getFormat Format_eqb RaveAttribute_getDouble
         RaveAttribute_setDouble].
  destruct Hname as [<- | [<- | [<- | []]]]; eval_names;
    destruct (Rlt_dec 0 v); reflexivity.
Qed.

Lemma convertTo_power (attrname : list ascii) (version : Z) (v : R) :
  In attrname power_names ->
  (RaveIO_ODIM_Version_2_4 <= version)%Z ->
  convertHowAttributeToInternalRave RaveIO_ODIM_Version_2_4 attrname version
    (AttrDouble v)
  = (1%Z, AttrDouble (dBm_to_kW v)).
Proof.
  intros Hname Hver.
  unfold convertHowAttributeToInternalRave.
  rewrite (proj2 (Z.ltb_ge _ _) Hver).
  cbn [RaveAttribute_getFormat Format_eqb RaveAttribute_getDouble
         RaveAttribute_setDouble].
  destruct Hname as [<- | [<- | [<- | []]]]; eval_names; reflexivity.
Qed.

Lemma convertFrom_TXpower (version : Z) (a : list R) :
  (RaveIO_ODIM_Version_2_4 <= version)%Z ->
  convertHowAttributeFromInternalRave RaveIO_ODIM_Version_2_4
    (cstr "how/TXpower") version (AttrDoubleArray a)
  = (1%Z, AttrDoubleArray
            (map (fun x => if Rlt_dec 0 x then kW_to_dBm x else x) a)).
Proof.
  intros Hver.
  unfold convertHowAttributeFromInternalRave.
  rewrite (proj2 (Z.ltb_ge _ _) Hver).
  cbn [RaveAttribute_getFormat Format_eqb RaveAttribute_getDoubleArray].
  eval_names. rewrite darr_loop_map. reflexivity.
Qed.

Lemma convertTo_TXpower (version : Z) (a : list R) :
  (RaveIO_ODIM_Version_2_4 <= version)%Z ->
  convertHowAttributeToInternalRave RaveIO_ODIM_Version_2_4
    (cstr "how/TXpower") version (AttrDoubleArray a)
  = (1%Z, AttrDoubleArray (map dBm_to_kW a)).
Proof.
  intros Hver.
  unfold convertHowAttributeToInternalRave.
  rewrite (proj2 (Z.ltb_ge _ _) Hver).
  cbn [RaveAttribute_getFormat Format_eqb RaveAttribute_getDoubleArray].
  eval_names. rewrite darr_loop_map. reflexivity.
Qed.

End HowAttributes.


(** C7.  On the write path, for an output version of at least 2.4 and a
    double attribute named how/nomTXpower, how/peakpwr or how/avgpwr, a value
    [v > 0] becomes [10 log10(1000 v) + 30] and a value [v <= 0] is left as
    it is, the call returning 1; for the double array how/TXpower the same
    rule is applied to each element on its own. *)
Theorem convertFrom_power_to_dBm
        (v24 version : Z) (attrname : list ascii) (v : R) (a : list R) :
  (v24 <= version)%Z ->
  In attrname power_names ->
  ((0 < v)%R ->
   OdimIoUtilities.convertHowAttributeFromInternalRave v24 attrname version
     (OdimIoUtilities.AttrDouble v)
   = (1%Z, OdimIoUtilities.AttrDouble
             (10 * OdimIoUtilities.log10 (1000 * v) + 30)%R)) /\
  ((v <= 0)%R ->
   OdimIoUtilities.convertHowAttributeFromInternalRave v24 attrname version
     (OdimIoUtilities.AttrDouble v)
   = (1%Z, OdimIoUtilities.AttrDouble v)) /\
  exists a',
    OdimIoUtilities.convertHowAttributeFromInternalRave v24
      (cstr "how/TXpower") version (OdimIoUtilities.AttrDoubleArray a)
    = (1%Z, OdimIoUtilities.AttrDoubleArray a') /\
    List.length a' = List.length a /\
    forall (i : nat) (x : R),
      nth_error a i = Some x ->
      ((0 < x)%R ->
       nth_error a' i
       = Some (10 * OdimIoUtilities.log10 (1000 * x) + 30)%R) /\
      ((x <= 0)%R -> nth_error a' i = Some x).
Proof.
  intros Hver Hname.
  rewrite (convertFrom_power v24 attrname version v Hname Hver).
  split; [|split].
  - intros Hv. destruct (Rlt_dec 0 v); [reflexivity | lra].
  - intros Hv. destruct (Rlt_dec 0 v); [lra | reflexivity].
  - eexists. split; [apply convertFrom_TXpower; exact Hver|].
    split; [apply length_map|].
    intros i x Hnth. rewrite nth_error_map, Hnth. cbn [option_map].
    split; intros Hx; destruct (Rlt_dec 0 x); try reflexivity; lra.
Qed.

Lemma convertFrom_power_to_dBm_witness :
  OdimIoUtilities.convertHowAttributeFromInternalRave 4 (cstr "how/peakpwr") 4
    (OdimIoUtilities.AttrDouble 250)
  = (1%Z, OdimIoUtilities.AttrDouble
            (10 * OdimIoUtilities.log10 (1000 * 250) + 30)%R).
Proof.
  apply (convertFrom_power_to_dBm 4 4 (cstr "how/peakpwr") 250 [250%R; 0%R]).
  - lia.
  - right. left. reflexivity.
  - lra.
Defined.

(** C8.  For every attribute name and attribute, when the version is
    below 2.4 both conversions return 1 and leave the attribute as it is. *)
Theorem convert_below_2_4_is_identity
        (v24 version : Z) (attrname : list ascii)
        (attr : OdimIoUtilities.RaveAttribute_t) :
  (version < v24)%Z ->
  OdimIoUtilities.convertHowAttributeToInternalRave v24 attrname version attr
  = (1%Z, attr) /\
  OdimIoUtilities.convertHowAttributeFromInternalRave v24 attrname version attr
  = (1%Z, attr).
Proof.
  intros Hver.
  unfold OdimIoUtilities.convertHowAttributeToInternalRave,
    OdimIoUtilities.convertHowAttributeFromInternalRave.
  rewrite (proj2 (Z.ltb_lt _ _) Hver). split; reflexivity.
Qed.

Lemma convert_below_2_4_is_identity_witness :
  OdimIoUtilities.convertHowAttributeToInternalRave 4 (cstr "how/gasattn") 3
    (OdimIoUtilities.AttrDouble 20)
  = (1%Z, OdimIoUtilities.AttrDouble 20) /\
  OdimIoUtilities.convertHowAttributeFromInternalRave 4 (cstr "how/gasattn") 3
    (OdimIoUtilities.AttrDouble 20)
  = (1%Z, OdimIoUtilities.AttrDouble 20).
Proof.
  apply (convert_below_2_4_is_identity 4 3 (cstr "how/gasattn")
           (OdimIoUtilities.AttrDouble 20)).
  lia.
Defined.

(** The read path has no positivity guard.  For an original version of at
    least 2.4, the value [10^((v - 30)/10) / 1000] is written for every
    double value [v] of how/nomTXpower, how/peakpwr and how/avgpwr and for
    every element of how/TXpower, whatever its sign.  Hence an internal value
    [v <= 0], which the write path leaves as it is, does not survive writing
    and reading back: it returns as [10^((v - 30)/10) / 1000], which differs
    from [v]; likewise every element of a how/TXpower array with no positive
    element. *)
Theorem power_read_path_is_unguarded
        (v24 version : Z) (attrname : list ascii) (v : R) (a : list R) :
  (v24 <= version)%Z ->
  In attrname power_names ->
  OdimIoUtilities.convertHowAttributeToInternalRave v24 attrname version
    (OdimIoUtilities.AttrDouble v)
  = (1%Z, OdimIoUtilities.AttrDouble
            (OdimIoUtilities.c_pow 10 ((v - 30) / 10) / 1000)%R) /\
  OdimIoUtilities.convertHowAttributeToInternalRave v24 (cstr "how/TXpower")
    version (OdimIoUtilities.AttrDoubleArray a)
  = (1%Z, OdimIoUtilities.AttrDoubleArray
            (map (fun x => OdimIoUtilities.c_pow 10 ((x - 30) / 10) / 1000)%R a)) /\
  ((v <= 0)%R ->
   OdimIoUtilities.write_then_read v24 attrname version
     (OdimIoUtilities.AttrDouble v)
   = OdimIoUtilities.AttrDouble
       (OdimIoUtilities.c_pow 10 ((v - 30) / 10) / 1000)%R /\
   (OdimIoUtilities.c_pow 10 ((v - 30) / 10) / 1000)%R <> v) /\
  (Forall (fun x => x <= 0)%R a ->
   OdimIoUtilities.write_then_read v24 (cstr "how/TXpower") version
     (OdimIoUtilities.AttrDoubleArray a)
   = OdimIoUtilities.AttrDoubleArray
       (map (fun x => OdimIoUtilities.c_pow 10 ((x - 30) / 10) / 1000)%R a)).
Proof.
  intros Hver Hname.
  split; [apply convertTo_power; assumption|].
  split; [apply convertTo_TXpower; assumption|].
  unfold OdimIoUtilities.write_then_read.
  rewrite (convertFrom_power v24 attrname version v Hname Hver).
  rewrite convertFrom_TXpower by exact Hver.
  cbn [snd].
  rewrite convertTo_power by assumption.
  rewrite convertTo_TXpower by exact Hver.
  cbn [snd].
  split.
  - intros Hv. destruct (Rlt_dec 0 v); [lra|].
    split; [reflexivity|].
    pose proof (dBm_to_kW_pos v) as Hpos.
    unfold OdimIoUtilities.dBm_to_kW in Hpos. lra.
  - intros Hall. rewrite map_map. f_equal. apply map_ext_in. intros x Hin.
    rewrite Forall_forall in Hall. specialize (Hall x Hin). cbv beta in Hall.
    destruct (Rlt_dec 0 x) as [Hx | Hx]; [lra | reflexivity].
Qed.

Lemma power_read_path_is_unguarded_witness :
  OdimIoUtilities.write_then_read 4 (cstr "how/avgpwr") 4
    (OdimIoUtilities.AttrDouble 0)
  = OdimIoUtilities.AttrDouble
      (OdimIoUtilities.c_pow 10 ((0 - 30) / 10) / 1000)%R /\
  (OdimIoUtilities.c_pow 10 ((0 - 30) / 10) / 1000)%R <> 0%R.
Proof.
  assert (H4 : (4 <= 4)%Z) by lia.
  assert (Hn : In (cstr "how/avgpwr") power_names)
    by (right; right; left; reflexivity).
  apply (power_read_path_is_unguarded 4 4 (cstr "how/avgpwr") 0 [] H4 Hn).
  lra.
Defined.


(** ** Identifiers of the source string *)

Section SourceIdentifiers.

Import CString OdimIoUtilities.
Local Open Scope list_scope.

Lemma starts_with_iff (pre s : list ascii) :
  starts_with pre s = true <-> exists tail, s = pre ++ tail.
Proof.
  revert s. induction pre as [|a pre IH]; intros s; cbn.
  - split; eauto.
  - destruct s as [|b s].
    + split; [discriminate | intros [tail H]; discriminate].
    + rewrite andb_true_iff, IH. unfold char_eqb. rewrite Ascii.eqb_eq.
      split.
      * intros [-> [tail ->]]. eauto.
      * intros [tail H]. injection H as -> ->. eauto.
Qed.

Lemma strstr_None (key : list ascii) : forall source,
  strstr source key = None <-> ~ occurs key source.
Proof.
  induction source as [|c source IH]; cbn [strstr].
  - destruct (starts_with key []) eqn:E.
    + split; [discriminate|]. intros H. exfalso. apply H.
      apply starts_with_iff in E. destruct E as [tail E].
      exists [], tail. exact E.
    + split; [|reflexivity]. intros _ (pre & tail & H).
      destruct pre; [|discriminate]. cbn in H.
      assert (starts_with key [] = true) by (apply starts_with_iff; eauto).
      congruence.
  - destruct (starts_with key (c :: source)) eqn:E.
    + split; [discriminate|]. intros H. exfalso. apply H.
      apply starts_with_iff in E. destruct E as [tail E].
      exists [], tail. exact E.
    + rewrite IH. split; intros H (pre & tail & Hocc); apply H.
      * destruct pre as [|p pre].
        -- cbn in Hocc.
           assert (starts_with key (c :: source) = true)
             by (apply starts_with_iff; eauto).
           congruence.
        -- injection Hocc as _ ->. exists pre, tail. reflexivity.
      * exists (c :: pre), tail. rewrite Hocc. reflexivity.
Qed.

Lemma strstr_first (key : list ascii) : forall pre source tail,
  first_occurrence key source pre tail ->
  strstr source key = Some (key ++ tail).
Proof.
  induction pre as [|c pre IH]; intros source tail [Hsrc Hmin].
  - cbn in Hsrc. subst source.
    assert (E : starts_with key (key ++ tail) = true)
      by (apply starts_with_iff; eauto).
    destruct (key ++ tail); cbn [strstr]; rewrite E; reflexivity.
  - subst source. cbn [app strstr].
    destruct (starts_with key (c :: pre ++ key ++ tail)) eqn:E.
    + apply starts_with_iff in E. destruct E as [tail' E].
      specialize (Hmin [] tail' E). cbn in Hmin. lia.
    + apply IH. split; [reflexivity|].
      intros pre' tail' H.
      specialize (Hmin (c :: pre') tail').
      cbn in Hmin. rewrite H in Hmin. specialize (Hmin eq_refl). lia.
Qed.

(** Conversely, the position [strstr] returns is a first occurrence. *)
Lemma strstr_Some (key : list ascii) : forall source p,
  strstr source key = Some p ->
  exists pre tail, first_occurrence key source pre tail /\ p = key ++ tail.
Proof.
  induction source as [|c source IH]; intros p; cbn [strstr].
  - destruct (starts_with key []) eqn:E; [|discriminate].
    intros [= <-]. apply starts_with_iff in E. destruct E as [tail E].
    exists [], tail. split; [|exact E].
    split; [exact E | intros; cbn; lia].
  - destruct (starts_with key (c :: source)) eqn:E.
    + intros [= <-]. apply starts_with_iff in E. destruct E as [tail E].
      exists [], tail. split; [|exact E].
      split; [exact E | intros; cbn; lia].
    + intros Hp. destruct (IH p Hp) as (pre & tail & [Hsrc Hmin] & ->).
      exists (c :: pre), tail. split; [|reflexivity].
      split; [rewrite Hsrc; reflexivity|].
      intros pre' tail' H. destruct pre' as [|c' pre'].
      * cbn in H.
        assert (starts_with key (c :: source) = true)
          by (apply starts_with_iff; eauto).
        congruence.
      * injection H as _ H. specialize (Hmin pre' tail' H). cbn. lia.
Qed.

(** Every string has a value up to its first comma. *)
Lemma value_up_to_comma_exists : forall tail : list ascii,
  exists value, value_up_to_comma tail value.
Proof.
  induction tail as [|c tail (value & Hnot & Hsplit)].
  - exists []. split; [intros [] | left; reflexivity].
  - destruct (Ascii.ascii_dec c comma) as [-> | Hc].
    + exists []. split; [intros [] | right; exists tail; reflexivity].
    + exists (c :: value). split.
      * intros [H | H]; [exact (Hc H) | exact (Hnot H)].
      * destruct Hsplit as [-> | [rest ->]]; [left | right; exists rest];
          reflexivity.
Qed.

Lemma strpbrk_no_comma (value : list ascii) :
  ~ In comma value -> strpbrk value (cstr ",") = None.
Proof.
  induction value as [|c value IH]; intros Hnot; cbn [strpbrk]; [reflexivity|].
  cbn [cstr list_ascii_of_string existsb orb].
  destruct (char_eqb c ","%char) eqn:E.
  - unfold char_eqb in E. apply Ascii.eqb_eq in E. subst c.
    exfalso. apply Hnot. left. reflexivity.
  - cbn [orb]. apply IH. intros H. apply Hnot. right. exact H.
Qed.

Lemma strpbrk_first_comma (value rest : list ascii) :
  ~ In comma value ->
  strpbrk (value ++ comma :: rest) (cstr ",") = Some (comma :: rest).
Proof.
  induction value as [|c value IH]; intros Hnot; cbn [strpbrk app].
  - reflexivity.
  - cbn [cstr list_ascii_of_string existsb orb].
    destruct (char_eqb c ","%char) eqn:E.
    + unfold char_eqb in E. apply Ascii.eqb_eq in E. subst c.
      exfalso. apply Hnot. left. reflexivity.
    + cbn [orb]. apply IH. intros H. apply Hnot. right. exact H.
Qed.

Lemma store_spec (c : ascii) : forall (buf : list ascii) (i : nat),
  (i < List.length buf)%nat ->
  store buf i c = firstn i buf ++ c :: skipn (S i) buf.
Proof.
  induction buf as [|b buf IH]; intros i Hi; cbn in Hi; [lia|].
  destruct i as [|i]; cbn [store firstn skipn app]; [reflexivity|].
  rewrite IH by lia. reflexivity.
Qed.

Lemma strncpy_from_spec : forall (n : nat) (src dest : list ascii) (i : nat),
  (n <= List.length src)%nat ->
  (i + n <= List.length dest)%nat ->
  strncpy_from dest i src n
  = firstn i dest ++ firstn n src ++ skipn (i + n) dest.
Proof.
  induction n as [|n IH]; intros src dest i Hsrc Hdest; cbn [strncpy_from].
  - cbn [firstn app]. rewrite Nat.add_0_r. symmetry. apply firstn_skipn.
  - destruct src as [|c src]; cbn in Hsrc; [lia|].
    rewrite IH.
    + rewrite store_spec by lia.
      rewrite firstn_app, firstn_firstn, Nat.min_r by lia.
      rewrite length_firstn, Nat.min_l by lia.
      replace (S i - i)%nat with 1%nat by lia.
      cbn [firstn].
      rewrite skipn_app, length_firstn, Nat.min_l by lia.
      rewrite skipn_all2 by (rewrite length_firstn; lia).
      replace (S i + n - i)%nat with (S n) by lia.
      rewrite skipn_cons. cbn [app].
      rewrite skipn_skipn.
      replace (n + S i)%nat with (i + S n)%nat by lia.
      rewrite <- app_assoc. reflexivity.
    + lia.
    + assert (List.length (store dest i c) = List.length dest).
      { rewrite store_spec by lia.
        rewrite length_app. cbn [List.length].
        rewrite length_firstn, length_skipn. lia. }
      lia.
Qed.

(** What the buffer holds after a successful extraction of [value]. *)
Lemma copy_value (buf value rest : list ascii) :
  (List.length value < List.length buf)%nat ->
  store (strncpy buf (value ++ rest) (List.length value)) (List.length value) NUL
  = value ++ NUL :: skipn (S (List.length value)) buf.
Proof.
  intros Hlen. unfold strncpy.
  rewrite strncpy_from_spec by (rewrite ?length_app; lia).
  cbn [firstn app plus].
  rewrite firstn_app, Nat.sub_diag, firstn_all. cbn [firstn]. rewrite app_nil_r.
  rewrite store_spec by (rewrite length_app, length_skipn; lia).
  rewrite firstn_app, Nat.sub_diag, firstn_all. cbn [firstn]. rewrite app_nil_r.
  f_equal. f_equal.
  rewrite skipn_app.
  rewrite skipn_all2 by lia.
  replace (S (List.length value) - List.length value)%nat with 1%nat by lia.
  cbn [app]. rewrite skipn_skipn. reflexivity.
Qed.


Lemma advance_past_key (key tail : list ascii) :
  advance (key ++ tail) (strlen key) = tail.
Proof.
  unfold advance, strlen. rewrite Nat2Z.id.
  rewrite skipn_app, skipn_all, Nat.sub_diag. reflexivity.
Qed.

(** The length the code computes for the value, before the size check. *)
Lemma value_length (tail value : list ascii) :
  value_up_to_comma tail value ->
  (strlen tail < INT_MAX)%Z ->
  match strpbrk tail (cstr ",") with
  | Some pbrk => int_of_size (strlen tail - strlen pbrk)
  | None => int_of_size (strlen tail)
  end = Z.of_nat (List.length value)
  /\ exists rest, tail = value ++ rest.
Proof.
  intros [Hnot [-> | [rest ->]]] Hlen; unfold strlen, INT_MAX in *.
  - rewrite strpbrk_no_comma by exact Hnot. split.
    + apply int_of_size_small. lia.
    + exists []. rewrite app_nil_r. reflexivity.
  - rewrite strpbrk_first_comma by exact Hnot. split.
    + rewrite length_app in *. cbn [List.length] in *.
      rewrite int_of_size_small by lia. lia.
    + eauto.
Qed.

Lemma size_of_int_small (n : Z) : (0 <= n < 2 ^ 32)%Z -> size_of_int n = n.
Proof. intros H. unfold size_of_int. apply Z.mod_small. lia. Qed.

(** The whole of [getIdFromSource] on a source that holds the key. *)
Lemma getIdFromSource_found (source key pre tail value buf : list ascii)
      (buflen : Z) :
  first_occurrence key source pre tail ->
  value_up_to_comma tail value ->
  (strlen source < INT_MAX)%Z ->
  getIdFromSource (Some source) (Some key) buf buflen
  = if (Z.of_nat (List.length value) + 1 <? buflen)%Z
    then (1%Z, store (strncpy buf tail (List.length value))
                     (List.length value) NUL)
    else (0%Z, buf).
Proof.
  intros Hfirst Hval Hlen.
  unfold getIdFromSource.
  rewrite (strstr_first key pre source tail Hfirst).
  rewrite advance_past_key.
  assert (Htail : (strlen tail < INT_MAX)%Z).
  { destruct Hfirst as [-> _]. unfold strlen in *.
    rewrite !length_app in Hlen. lia. }
  destruct (value_length tail value Hval Htail) as [Hl _].
  cbv zeta.
  replace (match strpbrk tail (cstr ",") with
           | Some pbrk => int_of_size (strlen tail - strlen pbrk)
           | None => int_of_size (strlen tail)
           end) with (Z.of_nat (List.length value)).
  assert (Hsmall : (Z.of_nat (List.length value) < INT_MAX)%Z).
  { destruct (value_length tail value Hval Htail) as [_ [rest ->]].
    unfold strlen in Htail. rewrite length_app in Htail. lia. }
  unfold INT_MAX in Hsmall.
  rewrite !size_of_int_small by lia.
  rewrite Nat2Z.id. reflexivity.
Qed.

Lemma getIdFromSource_absent (source key buf : list ascii) (buflen : Z) :
  ~ occurs key source ->
  getIdFromSource (Some source) (Some key) buf buflen = (0%Z, buf).
Proof.
  intros H. unfold getIdFromSource.
  rewrite (proj2 (strstr_None key source) H). reflexivity.
Qed.

Lemma getIdFromSource_copies (source key pre tail value buf : list ascii)
      (buflen : Z) :
  first_occurrence key source pre tail ->
  value_up_to_comma tail value ->
  (strlen source < INT_MAX)%Z ->
  (Z.of_nat (List.length value) + 1 < buflen)%Z ->
  (buflen <= Z.of_nat (List.length buf))%Z ->
  getIdFromSource (Some source) (Some key) buf buflen
  = (1%Z, value ++ NUL :: skipn (S (List.length value)) buf).
Proof.
  intros Hfirst Hval Hlen Hroom Hbuf.
  rewrite (getIdFromSource_found source key pre tail value buf buflen)
    by assumption.
  rewrite (proj2 (Z.ltb_lt _ _) Hroom).
  destruct Hval as [_ [-> | [rest ->]]].
  - rewrite <- (app_nil_r value) at 1.
    rewrite copy_value by lia. reflexivity.
  - rewrite copy_value by lia. reflexivity.
Qed.

End SourceIdentifiers.


(** A first occurrence shown on a literal: every shorter prefix fails. *)
Ltac first_occurrence_here :=
  split; [reflexivity|];
  let pre' := fresh "pre" in
  let tail' := fresh "tail" in
  let H := fresh "H" in
  intros pre' tail' H;
  cbv [cstr list_ascii_of_string] in H;
  repeat (destruct pre' as [|? pre']; cbn [app] in H; [discriminate H|]);
  cbn [List.length cstr list_ascii_of_string]; lia.

(** C6, as amended.  When [key] occurs in a source shorter than [INT_MAX],
    its first occurrence being followed by [value] up to the next comma or
    the end, and the buffer has room for the value
    ([length value + 1 < buflen], the buffer holding at least [buflen]
    bytes), [getIdFromSource] returns 1 and the buffer holds [value], then
    NUL, the bytes behind staying as they were.  When [key] does not occur,
    it returns 0 and the buffer is as before, whatever the source, the
    buffer and [buflen] are.  [getNodOrCmtFromSource] returns the value of
    NOD: when NOD: occurs and the buffer has room for its value, and is
    [getIdFromSource] with the key CMT: whenever NOD: does not occur. *)
Theorem getIdFromSource_extracts
        (source key pre tail value buf : list ascii) (buflen : Z) :
  (first_occurrence key source pre tail ->
   value_up_to_comma tail value ->
   (CString.strlen source < INT_MAX)%Z ->
   (Z.of_nat (List.length value) + 1 < buflen)%Z ->
   (buflen <= Z.of_nat (List.length buf))%Z ->
   OdimIoUtilities.getIdFromSource (Some source) (Some key) buf buflen
   = (1%Z, (value ++ CString.NUL :: skipn (S (List.length value)) buf)%list)) /\
  (~ occurs key source ->
   OdimIoUtilities.getIdFromSource (Some source) (Some key) buf buflen
   = (0%Z, buf)) /\
  (first_occurrence (cstr "NOD:") source pre tail ->
   value_up_to_comma tail value ->
   (CString.strlen source < INT_MAX)%Z ->
   (Z.of_nat (List.length value) + 1 < buflen)%Z ->
   (buflen <= Z.of_nat (List.length buf))%Z ->
   OdimIoUtilities.getNodOrCmtFromSource (Some source) buf buflen
   = (1%Z, (value ++ CString.NUL :: skipn (S (List.length value)) buf)%list)) /\
  (~ occurs (cstr "NOD:") source ->
   OdimIoUtilities.getNodOrCmtFromSource (Some source) buf buflen
   = OdimIoUtilities.getIdFromSource (Some source) (Some (cstr "CMT:")) buf buflen).
Proof.
  split; [|split; [|split]].
  - intros Hfirst Hval Hlen Hroom Hbuf.
    apply (getIdFromSource_copies source key pre tail); assumption.
  - apply getIdFromSource_absent.
  - intros Hfirst Hval Hlen Hroom Hbuf.
    unfold OdimIoUtilities.getNodOrCmtFromSource.
    rewrite (getIdFromSource_copies source (cstr "NOD:") pre tail value)
      by assumption.
    reflexivity.
  - intros Habs. unfold OdimIoUtilities.getNodOrCmtFromSource.
    rewrite getIdFromSource_absent by exact Habs.
    reflexivity.
Qed.

Lemma getIdFromSource_extracts_witness :
  OdimIoUtilities.getIdFromSource
    (Some (cstr "WMO:02954,NOD:sekir,CMT:Kiruna")) (Some (cstr "NOD:"))
    (repeat "x"%char 16) 16
  = (1%Z, (cstr "sekir" ++ CString.NUL :: repeat "x"%char 10)%list) /\
  OdimIoUtilities.getNodOrCmtFromSource
    (Some (cstr "WMO:02954,NOD:sekir,CMT:Kiruna")) (repeat "x"%char 16) 16
  = (1%Z, (cstr "sekir" ++ CString.NUL :: repeat "x"%char 10)%list).
Proof.
  assert (Hlen : (CString.strlen (cstr "WMO:02954,NOD:sekir,CMT:Kiruna")
                  < INT_MAX)%Z) by reflexivity.
  assert (Hroom : (Z.of_nat (List.length (cstr "sekir")) + 1 < 16)%Z)
    by reflexivity.
  assert (Hbuf : (16 <= Z.of_nat (List.length (repeat "x"%char 16)))%Z)
    by (cbn; lia).
  assert (Hfirst : first_occurrence (cstr "NOD:")
                     (cstr "WMO:02954,NOD:sekir,CMT:Kiruna")
                     (cstr "WMO:02954,") (cstr "sekir,CMT:Kiruna"))
    by first_occurrence_here.
  assert (Hval : value_up_to_comma (cstr "sekir,CMT:Kiruna") (cstr "sekir")).
  { split.
    - cbn. intros H. repeat (destruct H as [H | H]; [discriminate H|]). exact H.
    - right. exists (cstr "CMT:Kiruna"). reflexivity. }
  destruct (getIdFromSource_extracts
              (cstr "WMO:02954,NOD:sekir,CMT:Kiruna") (cstr "NOD:")
              (cstr "WMO:02954,") (cstr "sekir,CMT:Kiruna") (cstr "sekir")
              (repeat "x"%char 16) 16)
    as (Hid & _ & Hnod & _).
  split; [exact (Hid Hfirst Hval Hlen Hroom Hbuf)
         | exact (Hnod Hfirst Hval Hlen Hroom Hbuf)].
Defined.

(** C6, as written, fails when the buffer has no spare byte.  In the source
    of the claim's example the key NOD: occurs and is followed by sekir; with
    a buffer of six bytes, which would hold sekir and its NUL,
    [getIdFromSource] reports failure and writes nothing.  And on the source
    NOD:sekir,CMT:Ki with a buffer of four bytes NOD: is present, yet
    [getNodOrCmtFromSource] returns the value of CMT:. *)
Lemma getIdFromSource_without_room :
  first_occurrence (cstr "NOD:") (cstr "WMO:02954,NOD:sekir,CMT:Kiruna")
                   (cstr "WMO:02954,") (cstr "sekir,CMT:Kiruna") /\
  value_up_to_comma (cstr "sekir,CMT:Kiruna") (cstr "sekir") /\
  Z.of_nat (List.length (cstr "sekir" ++ [CString.NUL])%list) = 6%Z /\
  OdimIoUtilities.getIdFromSource
    (Some (cstr "WMO:02954,NOD:sekir,CMT:Kiruna")) (Some (cstr "NOD:"))
    (repeat "x"%char 6) 6
  = (0%Z, repeat "x"%char 6) /\
  first_occurrence (cstr "NOD:") (cstr "NOD:sekir,CMT:Ki")
                   [] (cstr "sekir,CMT:Ki") /\
  OdimIoUtilities.getNodOrCmtFromSource
    (Some (cstr "NOD:sekir,CMT:Ki")) (repeat "x"%char 4) 4
  = (1%Z, (cstr "Ki" ++ CString.NUL :: ["x"%char])%list).
Proof.
  split; [first_occurrence_here|].
  split.
  { split.
    - cbn. intros H. repeat (destruct H as [H | H]; [discriminate H|]). exact H.
    - right. exists (cstr "CMT:Kiruna"). reflexivity. }
  split; [reflexivity|].
  split; [reflexivity|].
  split; [first_occurrence_here|].
  reflexivity.
Qed.

(** The source of the design's scenario: no PLC: identifier; and the CMT:
    value when NOD: is missing. *)
Example getIdFromSource_examples :
  OdimIoUtilities.getIdFromSource
    (Some (cstr "WMO:02954,NOD:sekir,CMT:Kiruna")) (Some (cstr "PLC:"))
    (repeat "x"%char 16) 16
  = (0%Z, repeat "x"%char 16) /\
  OdimIoUtilities.getNodOrCmtFromSource
    (Some (cstr "WMO:02954,CMT:Kiruna")) (repeat "x"%char 16) 16
  = (1%Z, (cstr "Kiruna" ++ CString.NUL :: repeat "x"%char 9)%list).
Proof. split; reflexivity. Qed.

(** C10.  For a source shorter than [INT_MAX]: when [getIdFromSource]
    returns 1, [key] occurs in the source, its first occurrence is followed
    by a value up to the next comma or the end, and [buflen] is at least two
    more than the length of that value.  Whenever the first occurrence of
    [key] is followed by [value], the function returns 1 exactly when
    [length value + 2 <= buflen]; with a buffer of exactly
    [length value + 1] bytes, which would hold the value and its NUL, it
    returns 0 and the buffer is left as it was. *)
Theorem getIdFromSource_needs_two_spare_bytes
        (source key buf : list ascii) (buflen : Z) :
  (CString.strlen source < INT_MAX)%Z ->
  (fst (OdimIoUtilities.getIdFromSource (Some source) (Some key) buf buflen) = 1%Z ->
   exists pre tail value,
     first_occurrence key source pre tail /\
     value_up_to_comma tail value /\
     (Z.of_nat (List.length value) + 2 <= buflen)%Z) /\
  (forall pre tail value,
      first_occurrence key source pre tail ->
      value_up_to_comma tail value ->
      (fst (OdimIoUtilities.getIdFromSource (Some source) (Some key) buf buflen)
       = 1%Z
       <-> (Z.of_nat (List.length value) + 2 <= buflen)%Z) /\
      (buflen = (Z.of_nat (List.length value) + 1)%Z ->
       OdimIoUtilities.getIdFromSource (Some source) (Some key) buf buflen
       = (0%Z, buf))).
Proof.
  intros Hlen.
  assert (Hchar : forall pre tail value,
      first_occurrence key source pre tail ->
      value_up_to_comma tail value ->
      (fst (OdimIoUtilities.getIdFromSource (Some source) (Some key) buf buflen)
       = 1%Z
       <-> (Z.of_nat (List.length value) + 2 <= buflen)%Z) /\
      (buflen = (Z.of_nat (List.length value) + 1)%Z ->
       OdimIoUtilities.getIdFromSource (Some source) (Some key) buf buflen
       = (0%Z, buf))).
  { intros pre tail value Hfirst Hval.
    rewrite (getIdFromSource_found source key pre tail value buf buflen)
      by assumption.
    destruct (Z.ltb_spec (Z.of_nat (List.length value) + 1) buflen) as [H | H];
      cbn [fst]; split; try split; try lia; try discriminate; reflexivity. }
  split; [|exact Hchar].
  intros Hres.
  destruct (CString.strstr source key) as [p|] eqn:Hp.
  - destruct (strstr_Some key source p Hp) as (pre & tail & Hfirst & _).
    destruct (value_up_to_comma_exists tail) as [value Hval].
    exists pre, tail, value. split; [exact Hfirst|]. split; [exact Hval|].
    apply (Hchar pre tail value Hfirst Hval). exact Hres.
  - unfold OdimIoUtilities.getIdFromSource in Hres. rewrite Hp in Hres.
    discriminate Hres.
Qed.

Lemma getIdFromSource_needs_two_spare_bytes_witness :
  OdimIoUtilities.getIdFromSource
    (Some (cstr "WMO:02954,NOD:sekir,CMT:Kiruna")) (Some (cstr "NOD:"))
    (repeat "x"%char 6) 6
  = (0%Z, repeat "x"%char 6).
Proof.
  assert (Hlen : (CString.strlen (cstr "WMO:02954,NOD:sekir,CMT:Kiruna")
                  < INT_MAX)%Z) by reflexivity.
  assert (Hfirst : first_occurrence (cstr "NOD:")
                     (cstr "WMO:02954,NOD:sekir,CMT:Kiruna")
                     (cstr "WMO:02954,") (cstr "sekir,CMT:Kiruna"))
    by first_occurrence_here.
  assert (Hval : value_up_to_comma (cstr "sekir,CMT:Kiruna") (cstr "sekir")).
  { split.
    - cbn. intros H. repeat (destruct H as [H | H]; [discriminate H|]). exact H.
    - right. exists (cstr "CMT:Kiruna"). reflexivity. }
  apply (proj2 (getIdFromSource_needs_two_spare_bytes
                  (cstr "WMO:02954,NOD:sekir,CMT:Kiruna") (cstr "NOD:")
                  (repeat "x"%char 6) 6 Hlen)
               (cstr "WMO:02954,") (cstr "sekir,CMT:Kiruna") (cstr "sekir")
               Hfirst Hval).
  reflexivity.
Defined.

(** * Further properties *)

(** ** Geometry: how the conversions compose *)

Section GeometryComposition.

Import Geometry.
Local Open Scope R_scope.

Lemma sin_alpha (eta beta : R) :
  sin (M_PI - (eta + M_PI / 2) - beta) = cos (beta + eta).
Proof.
  unfold M_PI.
  replace (PI - (eta + PI / 2) - beta) with (PI / 2 - (beta + eta)) by field.
  apply sin_shift.
Qed.

(** Two identities of the triangle centre - radar - bin, written with
    [C = cos (beta + eta)]. *)
Lemma triangle_centre_side (eta beta : R) :
  cos (beta + eta) * cos (beta + eta) + sin beta * sin beta
  + 2 * sin beta * sin eta * cos (beta + eta) = cos eta * cos eta.
Proof.
  rewrite cos_plus.
  pose proof (sin2_cos2 eta) as He. pose proof (sin2_cos2 beta) as Hb.
  unfold Rsqr in He, Hb.
  set (se := sin eta) in *. set (ce := cos eta) in *.
  set (sb := sin beta) in *. set (cb := cos beta) in *.
  transitivity (cb * cb * (ce * ce) + sb * sb * (1 - se * se)); [ring|].
  replace (1 - se * se) with (ce * ce) by lra.
  replace (cb * cb * (ce * ce) + sb * sb * (ce * ce))
    with ((sb * sb + cb * cb) * (ce * ce)) by ring.
  rewrite Hb. ring.
Qed.

Lemma triangle_beam_side (eta beta : R) :
  cos eta * cos eta + cos (beta + eta) * cos (beta + eta)
  - 2 * cos eta * cos beta * cos (beta + eta) = sin beta * sin beta.
Proof.
  rewrite cos_plus.
  pose proof (sin2_cos2 eta) as He. pose proof (sin2_cos2 beta) as Hb.
  unfold Rsqr in He, Hb.
  set (se := sin eta) in *. set (ce := cos eta) in *.
  set (sb := sin beta) in *. set (cb := cos beta) in *.
  transitivity (ce * ce * (1 - cb * cb) + sb * sb * (se * se)); [ring|].
  replace (1 - cb * cb) with (sb * sb) by lra.
  replace (ce * ce * (sb * sb) + sb * sb * (se * se))
    with ((se * se + ce * ce) * (sb * sb)) by ring.
  rewrite He. ring.
Qed.

Lemma beamFromEtaBeta_eq (eta beta : R) :
  beamFromEtaBeta eta beta = EARTH_RADIUS_43 * sin beta / cos (beta + eta).
Proof.
  unfold beamFromEtaBeta. cbv zeta. rewrite sin_alpha.
  unfold Rdiv. ring.
Qed.

Lemma centre_distance_of_beta (eta beta : R) :
  0 < cos (beta + eta) -> 0 <= cos eta ->
  EARTH_RADIUS_43 + heightFromEtaBeam eta (beamFromEtaBeta eta beta)
  = EARTH_RADIUS_43 * cos eta / cos (beta + eta).
Proof.
  intros HC Hce. pose proof EARTH_RADIUS_43_pos as Ha.
  rewrite heightFromEtaBeam_centre, beamFromEtaBeta_eq.
  set (a := EARTH_RADIUS_43) in *.
  pose proof (triangle_centre_side eta beta) as Hid.
  set (C := cos (beta + eta)) in *.
  set (se := sin eta) in *. set (ce := cos eta) in *. set (sb := sin beta) in *.
  replace ((a * sb / C + a * se) * (a * sb / C + a * se) + a * ce * (a * ce))
    with ((a * ce / C) * (a * ce / C)).
  - apply sqrt_square.
    apply Rmult_le_pos; [apply Rmult_le_pos; lra|].
    left. apply Rinv_0_lt_compat. exact HC.
  - pose proof (sin2_cos2 eta) as He. unfold Rsqr in He.
    fold se ce in He.
    assert (Hnum : (sb + se * C) * (sb + se * C) + ce * ce * (C * C) = ce * ce).
    { transitivity (sb * sb + 2 * sb * se * C + (se * se + ce * ce) * (C * C));
        [ring|].
      rewrite He. lra. }
    transitivity (a * a * ((sb + se * C) * (sb + se * C) + ce * ce * (C * C))
                  / (C * C)).
    + rewrite Hnum. field. lra.
    + field. lra.
Qed.


Lemma heightFromEtaBeta_centre (eta beta : R) :
  EARTH_RADIUS_43 + heightFromEtaBeta eta beta
  = EARTH_RADIUS_43 * cos eta / cos (beta + eta).
Proof.
  unfold heightFromEtaBeta. cbv zeta. unfold Rdiv. ring.
Qed.

(** The side radar - bin of the triangle whose side centre - bin is
    [a cos eta / cos (beta + eta)]. *)
Lemma beam_side_of_beta (eta beta : R) :
  0 < cos (beta + eta) -> 0 <= sin beta ->
  sqrt (EARTH_RADIUS_43 * EARTH_RADIUS_43
        + (EARTH_RADIUS_43 * cos eta / cos (beta + eta))
          * (EARTH_RADIUS_43 * cos eta / cos (beta + eta))
        - 2 * EARTH_RADIUS_43
          * (EARTH_RADIUS_43 * cos eta / cos (beta + eta)) * cos beta)
  = EARTH_RADIUS_43 * sin beta / cos (beta + eta).
Proof.
  intros HC Hsb. pose proof EARTH_RADIUS_43_pos as Ha.
  set (a := EARTH_RADIUS_43) in *.
  pose proof (triangle_beam_side eta beta) as Hid.
  set (C := cos (beta + eta)) in *.
  set (ce := cos eta) in *. set (sb := sin beta) in *. set (cb := cos beta) in *.
  replace (a * a + a * ce / C * (a * ce / C) - 2 * a * (a * ce / C) * cb)
    with ((a * sb / C) * (a * sb / C)).
  - apply sqrt_square.
    apply Rmult_le_pos; [apply Rmult_le_pos; lra|].
    left. apply Rinv_0_lt_compat. exact HC.
  - transitivity (a * a * (sb * sb) / (C * C)); [field; lra|].
    rewrite <- Hid. field. lra.
Qed.

Lemma heightFromEtaBeam_beamFromEtaH (eta h : R) :
  0 < cos eta ->
  0 < EARTH_RADIUS_43 + h ->
  EARTH_RADIUS_43 * cos eta <= EARTH_RADIUS_43 + h ->
  heightFromEtaBeam eta (beamFromEtaH eta h) = h.
Proof.
  intros Hk Hc Hle. pose proof EARTH_RADIUS_43_pos as Ha.
  apply Rplus_eq_reg_l with EARTH_RADIUS_43.
  rewrite heightFromEtaBeam_centre.
  unfold beamFromEtaH. cbv zeta.
  set (a := EARTH_RADIUS_43) in *.
  set (c := a + h) in *.
  rewrite sin_quarter_turn.
  set (s := sin eta) in *. set (k := cos eta) in *.
  set (x := a * k / c).
  assert (Hakpos : 0 < a * k) by (apply Rmult_lt_0_compat; assumption).
  assert (Hx : -1 <= x <= 1).
  { unfold x. split.
    - apply Rle_trans with 0; [lra|].
      apply Rmult_le_pos; [lra | left; apply Rinv_0_lt_compat; exact Hc].
    - apply Rmult_le_reg_r with c; [exact Hc|].
      unfold Rdiv. rewrite Rmult_assoc, Rinv_l by lra. lra. }
  replace (M_PI - (eta + M_PI / 2) - asin x)
    with (PI - ((eta + M_PI / 2) + asin x)) by (unfold M_PI; ring).
  rewrite sin_PI_x, sin_plus, sin_quarter_turn, cos_quarter_turn'.
  rewrite sin_asin, cos_asin by exact Hx.
  fold s k.
  set (q := sqrt (1 - x²)).
  assert (Hq : q * q = 1 - x * x).
  { unfold q. rewrite sqrt_sqrt; [reflexivity|].
    unfold Rsqr. assert (x * x <= 1) by nra. lra. }
  replace ((k * q + - s * x) * c / k + a * s) with (c * q)
    by (unfold x; field; lra).
  replace (c * q * (c * q) + a * k * (a * k)) with (c * c).
  - apply sqrt_square. lra.
  - transitivity (c * c * (q * q) + a * k * (a * k)); [|ring].
    rewrite Hq. unfold x. field. lra.
Qed.

Lemma height_along_beam (eta beta : R) :
  0 < cos (beta + eta) -> 0 <= cos eta ->
  heightFromEtaBeam eta (beamFromEtaBeta eta beta) = heightFromEtaBeta eta beta.
Proof.
  intros HC Hce.
  apply Rplus_eq_reg_l with EARTH_RADIUS_43.
  rewrite centre_distance_of_beta by assumption.
  rewrite heightFromEtaBeta_centre. reflexivity.
Qed.

Lemma eta_of_height (eta beta : R) :
  0 < cos (beta + eta) -> 0 < sin beta -> - (PI / 2) <= eta <= PI / 2 ->
  etaFromBetaH beta (heightFromEtaBeta eta beta) = eta.
Proof.
  intros HC Hsb Heta.
  pose proof EARTH_RADIUS_43_pos as Ha.
  unfold etaFromBetaH. cbv zeta.
  replace (heightFromEtaBeta eta beta + EARTH_RADIUS_43)
    with (EARTH_RADIUS_43 * cos eta / cos (beta + eta))
    by (rewrite <- heightFromEtaBeta_centre; ring).
  rewrite beam_side_of_beta by lra.
  rewrite heightFromEtaBeta_centre.
  set (a := EARTH_RADIUS_43) in *.
  replace ((a - a * cos eta / cos (beta + eta) * cos beta)
           / (a * sin beta / cos (beta + eta)))
    with (cos (eta + PI / 2)).
  - rewrite acos_cos by lra. unfold M_PI. ring.
  - rewrite cos_plus, cos_PI2, sin_PI2.
    assert (HCe : cos (beta + eta) = cos beta * cos eta - sin beta * sin eta)
      by apply cos_plus.
    set (C := cos (beta + eta)) in *.
    transitivity ((C - cos eta * cos beta) / sin beta).
    + rewrite HCe. field. lra.
    + field. split; lra.
Qed.

Lemma ground_of_beam (eta beta : R) :
  - (PI / 2) < beta < PI / 2 -> cos eta <> 0 -> cos (beta + eta) <> 0 ->
  groundFromEtaB eta (beamFromEtaBeta eta beta) = EARTH_RADIUS_43 * beta.
Proof.
  intros Hbeta Hce HC. pose proof EARTH_RADIUS_43_pos as Ha.
  assert (Hcb : 0 < cos beta) by (apply cos_gt_0; lra).
  unfold groundFromEtaB. cbv zeta. rewrite beamFromEtaBeta_eq.
  set (a := EARTH_RADIUS_43) in *.
  f_equal.
  transitivity (atan (tan beta)); [|apply atan_tan; exact Hbeta].
  f_equal. unfold tan.
  assert (HCe : sin beta * sin eta + cos (beta + eta) = cos beta * cos eta)
    by (rewrite cos_plus; ring).
  set (C := cos (beta + eta)) in *.
  assert (Hden : sin beta * sin eta + C <> 0).
  { rewrite HCe. apply Rmult_integral_contrapositive_currified; lra. }
  transitivity (sin beta * cos eta / (sin beta * sin eta + C)).
  - field. split; [exact Hden|]. split; [exact HC|].
    replace (a * sin beta * sin eta + a * C)
      with (a * (sin beta * sin eta + C)) by ring.
    apply Rmult_integral_contrapositive_currified; [lra | exact Hden].
  - rewrite HCe. field. split; lra.
Qed.

Lemma heightFromEtaBeam_bounds (eta b : R) :
  0 <= b ->
  b * sin eta <= heightFromEtaBeam eta b <= b.
Proof.
  intros Hb. pose proof EARTH_RADIUS_43_pos as Ha.
  pose proof (heightFromEtaBeam_centre eta b) as Hc.
  pose proof (sin2_cos2 eta) as He. unfold Rsqr in He.
  pose proof (SIN_bound eta) as [_ Hs1].
  set (a := EARTH_RADIUS_43) in *.
  set (s := sin eta) in *. set (k := cos eta) in *.
  set (rad := (b + a * s) * (b + a * s) + a * k * (a * k)) in *.
  assert (Hrad1 : rad = (a + b * s) * (a + b * s) + (b * k) * (b * k)).
  { unfold rad.
    transitivity (b * b + 2 * a * b * s + a * a * (s * s + k * k)); [ring|].
    transitivity (a * a + 2 * a * b * s + b * b * (s * s + k * k)); [|ring].
    rewrite He. ring. }
  assert (Hrad2 : rad = (a + b) * (a + b) - 2 * a * b * (1 - s)).
  { unfold rad.
    transitivity (b * b + 2 * a * b * s + a * a * (s * s + k * k)); [ring|].
    rewrite He. ring. }
  assert (Hbk : 0 <= (b * k) * (b * k)) by apply Rle_0_sqr.
  assert (Hab : 0 <= 2 * a * b * (1 - s)).
  { apply Rmult_le_pos; [apply Rmult_le_pos|]; lra. }
  split.
  - destruct (Rle_lt_dec 0 (a + b * s)) as [Hpos | Hneg].
    + assert (a + b * s <= sqrt rad).
      { rewrite <- (sqrt_square (a + b * s)) by exact Hpos.
        apply sqrt_le_1_alt. lra. }
      lra.
    + pose proof (sqrt_pos rad). lra.
  - assert (sqrt rad <= a + b).
    { rewrite <- (sqrt_square (a + b)) by lra.
      apply sqrt_le_1_alt. lra. }
    lra.
Qed.

Lemma normalizedBeamPower_range (w x : R) :
  w <> 0 -> 0 < normalizedBeamPower w x <= 1.
Proof.
  intros Hw. unfold normalizedBeamPower. cbv zeta.
  assert (Hw2 : 0 < w * w).
  { destruct (Rtotal_order w 0) as [H | [H | H]]; [|contradiction|]; nra. }
  assert (Hx2 : 0 <= x * x) by apply Rle_0_sqr.
  split.
  - apply Rdiv_lt_0_compat; lra.
  - apply Rmult_le_reg_r with (w * w + x * x); [lra|].
    unfold Rdiv. rewrite Rmult_assoc, Rinv_l by lra. lra.
Qed.

Lemma normalizedBeamPower_decreasing (w x y : R) :
  w <> 0 -> Rabs x < Rabs y ->
  normalizedBeamPower w y < normalizedBeamPower w x.
Proof.
  intros Hw Hxy. unfold normalizedBeamPower. cbv zeta.
  assert (Hw2 : 0 < w * w).
  { destruct (Rtotal_order w 0) as [H | [H | H]]; [|contradiction|]; nra. }
  assert (Hx2 : 0 <= x * x) by apply Rle_0_sqr.
  assert (Hlt : x * x < y * y).
  { replace (x * x) with (Rabs x * Rabs x)
      by (rewrite <- Rabs_mult; apply Rabs_pos_eq; exact Hx2).
    replace (y * y) with (Rabs y * Rabs y)
      by (rewrite <- Rabs_mult; apply Rabs_pos_eq; apply Rle_0_sqr).
    pose proof (Rabs_pos x).
    apply Rmult_le_0_lt_compat; lra. }
  unfold Rdiv. apply Rmult_lt_compat_l; [exact Hw2|].
  apply Rinv_lt_contravar; [|lra].
  apply Rmult_lt_0_compat; lra.
Qed.

End GeometryComposition.

(** The altitude reached along the beam is the altitude above the ground
    angle: [heightFromEtaBeam] after [beamFromEtaBeta] is
    [heightFromEtaBeta]. *)
Theorem heightFromEtaBeam_beamFromEtaBeta (eta beta : R) :
  (0 < cos (beta + eta))%R -> (0 <= cos eta)%R ->
  Geometry.heightFromEtaBeam eta (Geometry.beamFromEtaBeta eta beta)
  = Geometry.heightFromEtaBeta eta beta.
Proof. exact (height_along_beam eta beta). Qed.

Lemma heightFromEtaBeam_beamFromEtaBeta_witness :
  Geometry.heightFromEtaBeam 0 (Geometry.beamFromEtaBeta 0 (PI / 6))
  = Geometry.heightFromEtaBeta 0 (PI / 6).
Proof.
  pose proof PI_RGT_0 as Hpi.
  apply (heightFromEtaBeam_beamFromEtaBeta 0 (PI / 6)).
  - rewrite Rplus_0_r. apply cos_gt_0; lra.
  - rewrite cos_0. lra.
Defined.

(** The slant range to the point at ground angle [beta] and at the altitude
    [heightFromEtaBeta eta beta] is [beamFromEtaBeta eta beta]. *)
Theorem beamFromBetaH_heightFromEtaBeta (eta beta : R) :
  (0 < cos (beta + eta))%R -> (0 <= sin beta)%R ->
  Geometry.beamFromBetaH beta (Geometry.heightFromEtaBeta eta beta)
  = Geometry.beamFromEtaBeta eta beta.
Proof.
  intros HC Hsb.
  rewrite beamFromEtaBeta_eq.
  rewrite <- (beam_side_of_beta eta beta HC Hsb).
  unfold Geometry.beamFromBetaH. cbv zeta.
  rewrite heightFromEtaBeta_centre.
  f_equal.
  set (c := (Geometry.EARTH_RADIUS_43 * cos eta / cos (beta + eta))%R).
  replace (Geometry.heightFromEtaBeta eta beta)
    with (c - Geometry.EARTH_RADIUS_43)%R
    by (unfold c; rewrite <- heightFromEtaBeta_centre; ring).
  ring.
Qed.

Lemma beamFromBetaH_heightFromEtaBeta_witness :
  Geometry.beamFromBetaH (PI / 6) (Geometry.heightFromEtaBeta 0 (PI / 6))
  = Geometry.beamFromEtaBeta 0 (PI / 6).
Proof.
  pose proof PI_RGT_0 as Hpi.
  apply (beamFromBetaH_heightFromEtaBeta 0 (PI / 6)).
  - rewrite Rplus_0_r. apply cos_gt_0; lra.
  - left. apply sin_gt_0; lra.
Defined.

(** [etaFromBetaH] recovers the elevation from the ground angle and the
    altitude [heightFromEtaBeta] computes. *)
Theorem etaFromBetaH_heightFromEtaBeta (eta beta : R) :
  (0 < cos (beta + eta))%R -> (0 < sin beta)%R ->
  (- (PI / 2) <= eta <= PI / 2)%R ->
  Geometry.etaFromBetaH beta (Geometry.heightFromEtaBeta eta beta) = eta.
Proof. exact (eta_of_height eta beta). Qed.

Lemma etaFromBetaH_heightFromEtaBeta_witness :
  Geometry.etaFromBetaH (PI / 6) (Geometry.heightFromEtaBeta 0 (PI / 6)) = 0%R.
Proof.
  pose proof PI_RGT_0 as Hpi.
  apply (etaFromBetaH_heightFromEtaBeta 0 (PI / 6)).
  - rewrite Rplus_0_r. apply cos_gt_0; lra.
  - apply sin_gt_0; lra.
  - lra.
Defined.

(** [beamFromEtaH] is a right inverse of [heightFromEtaBeam] at every
    elevation strictly between -90 and 90 degrees and every altitude at or
    above the radar level: the bin at the slant range it returns has the
    altitude asked for. *)
Theorem heightFromEtaBeam_inverts_beamFromEtaH (eta h : R) :
  (- (PI / 2) < eta < PI / 2)%R -> (0 <= h)%R ->
  Geometry.heightFromEtaBeam eta (Geometry.beamFromEtaH eta h) = h.
Proof.
  intros Heta Hh. pose proof EARTH_RADIUS_43_pos as Ha.
  assert (Hk : (0 < cos eta)%R) by (apply cos_gt_0; lra).
  pose proof (COS_bound eta) as [_ Hk1].
  apply heightFromEtaBeam_beamFromEtaH; [exact Hk | lra |].
  apply Rle_trans with (Geometry.EARTH_RADIUS_43 * 1)%R; [|lra].
  apply Rmult_le_compat_l; lra.
Qed.

Lemma heightFromEtaBeam_inverts_beamFromEtaH_witness :
  Geometry.heightFromEtaBeam 0 (Geometry.beamFromEtaH 0 1000) = 1000%R.
Proof.
  pose proof PI_RGT_0 as Hpi.
  apply (heightFromEtaBeam_inverts_beamFromEtaH 0 1000); lra.
Defined.

(** From a ground distance to the slant range and back: [groundFromEtaB]
    inverts [beamFromEtaGround] for ground distances of less than a quarter
    of the circumference of the effective Earth, whenever the beam is not
    vertical and meets the vertical of the ground point. *)
Theorem groundFromEtaB_beamFromEtaGround (eta g : R) :
  (- (Geometry.EARTH_RADIUS_43 * (PI / 2)) < g
   < Geometry.EARTH_RADIUS_43 * (PI / 2))%R ->
  cos eta <> 0%R ->
  cos (g / Geometry.EARTH_RADIUS_43 + eta) <> 0%R ->
  Geometry.groundFromEtaB eta (Geometry.beamFromEtaGround eta g) = g.
Proof.
  intros Hg Hce HC. pose proof EARTH_RADIUS_43_pos as Ha.
  change (Geometry.beamFromEtaGround eta g)
    with (Geometry.beamFromEtaBeta eta (g / Geometry.EARTH_RADIUS_43)).
  rewrite ground_of_beam; [field; lra | | exact Hce | exact HC].
  set (a := Geometry.EARTH_RADIUS_43) in *.
  split.
  - apply Rmult_lt_reg_l with a; [exact Ha|].
    replace (a * (g / a))%R with g by (field; lra). lra.
  - apply Rmult_lt_reg_l with a; [exact Ha|].
    replace (a * (g / a))%R with g by (field; lra). lra.
Qed.

Lemma groundFromEtaB_beamFromEtaGround_witness :
  Geometry.groundFromEtaB 0 (Geometry.beamFromEtaGround 0 100000) = 100000%R.
Proof.
  pose proof PI_RGT_0 as Hpi. pose proof PI2_3_2 as Hpi2.
  pose proof EARTH_RADIUS_43_pos as Ha.
  assert (Hsmall : (0 < 100000 / Geometry.EARTH_RADIUS_43 < 1)%R).
  { unfold Geometry.EARTH_RADIUS_43, Geometry.EARTH_RADIUSi. split.
    - apply Rdiv_lt_0_compat; lra.
    - apply Rmult_lt_reg_r with (4 / 3 * 6371000)%R; [lra|].
      unfold Rdiv at 1. rewrite Rmult_assoc, Rinv_l by lra. lra. }
  apply (groundFromEtaB_beamFromEtaGround 0 100000).
  - unfold Geometry.EARTH_RADIUS_43, Geometry.EARTH_RADIUSi. lra.
  - rewrite cos_0. lra.
  - rewrite Rplus_0_r. apply Rgt_not_eq. apply cos_gt_0; lra.
Defined.

(** The whole chain gives the elevation back: from an elevation and a ground
    distance, the slant range ([beamFromEtaGround]), then the altitude along
    the beam ([heightFromEtaBeam]), then the elevation seen from that ground
    distance and altitude ([etaFromGH]). *)
Theorem etaFromGH_of_beam_height (eta g : R) :
  (- (PI / 2) <= eta <= PI / 2)%R ->
  (0 < sin (g / Geometry.EARTH_RADIUS_43))%R ->
  (0 < cos (g / Geometry.EARTH_RADIUS_43 + eta))%R ->
  Geometry.etaFromGH g
    (Geometry.heightFromEtaBeam eta (Geometry.beamFromEtaGround eta g))
  = eta.
Proof.
  intros Heta Hsb HC.
  assert (Hce : (0 <= cos eta)%R) by (apply cos_ge_0; lra).
  change (Geometry.beamFromEtaGround eta g)
    with (Geometry.beamFromEtaBeta eta (g / Geometry.EARTH_RADIUS_43)).
  rewrite height_along_beam by assumption.
  unfold Geometry.etaFromGH. apply eta_of_height; assumption.
Qed.

Lemma etaFromGH_of_beam_height_witness :
  Geometry.etaFromGH (Geometry.EARTH_RADIUS_43 * (PI / 6))
    (Geometry.heightFromEtaBeam 0
       (Geometry.beamFromEtaGround 0 (Geometry.EARTH_RADIUS_43 * (PI / 6))))
  = 0%R.
Proof.
  pose proof PI_RGT_0 as Hpi. pose proof EARTH_RADIUS_43_pos as Ha.
  assert (Hb : (Geometry.EARTH_RADIUS_43 * (PI / 6) / Geometry.EARTH_RADIUS_43
                = PI / 6)%R) by (field; lra).
  apply (etaFromGH_of_beam_height 0 (Geometry.EARTH_RADIUS_43 * (PI / 6))).
  - lra.
  - rewrite Hb. apply sin_gt_0; lra.
  - rewrite Hb, Rplus_0_r. apply cos_gt_0; lra.
Defined.

(** For every elevation and every slant range [b >= 0], the altitude
    [heightFromEtaBeam] returns lies between the flat-Earth height
    [b sin eta] and the slant range itself; at range 0 it is 0. *)
Theorem heightFromEtaBeam_between (eta b : R) :
  (0 <= b)%R ->
  (b * sin eta <= Geometry.heightFromEtaBeam eta b <= b)%R /\
  Geometry.heightFromEtaBeam eta 0 = 0%R.
Proof.
  intros Hb. split; [apply heightFromEtaBeam_bounds; exact Hb|].
  pose proof (heightFromEtaBeam_bounds eta 0 (Rle_refl 0)) as H.
  rewrite Rmult_0_l in H. lra.
Qed.

Lemma heightFromEtaBeam_between_witness :
  (1000 * sin (PI / 6) <= Geometry.heightFromEtaBeam (PI / 6) 1000 <= 1000)%R.
Proof.
  apply (heightFromEtaBeam_between (PI / 6) 1000). lra.
Defined.

(** The normalized beam power of an antenna of beam width [w <> 0] is 1 on
    the beam centre, one half at the angle [w], the same on both sides of
    the centre, within (0, 1] everywhere, and strictly smaller the farther
    from the centre; the constructor's beam width of one degree is not 0. *)
Theorem normalizedBeamPower_profile (w x y : R) :
  w <> 0%R ->
  Geometry.normalizedBeamPower w 0 = 1%R /\
  Geometry.normalizedBeamPower w w = (1 / 2)%R /\
  Geometry.normalizedBeamPower w (- x) = Geometry.normalizedBeamPower w x /\
  (0 < Geometry.normalizedBeamPower w x <= 1)%R /\
  ((Rabs x < Rabs y)%R ->
   (Geometry.normalizedBeamPower w y < Geometry.normalizedBeamPower w x)%R) /\
  Geometry.default_beamWidth <> 0%R.
Proof.
  intros Hw.
  assert (Hw2 : (w * w <> 0)%R)
    by (apply Rmult_integral_contrapositive_currified; exact Hw).
  split; [unfold Geometry.normalizedBeamPower; cbv zeta; field; exact Hw|].
  split.
  { unfold Geometry.normalizedBeamPower. cbv zeta. field.
    intros H. apply Hw2. lra. }
  split.
  { unfold Geometry.normalizedBeamPower. cbv zeta.
    replace (- x * - x)%R with (x * x)%R by ring. reflexivity. }
  split; [apply normalizedBeamPower_range; exact Hw|].
  split; [apply normalizedBeamPower_decreasing; exact Hw|].
  unfold Geometry.default_beamWidth, Geometry.M_PI.
  pose proof PI_RGT_0. lra.
Qed.

Lemma normalizedBeamPower_profile_witness :
  Geometry.normalizedBeamPower Geometry.default_beamWidth
    Geometry.default_beamWidth = (1 / 2)%R.
Proof.
  assert (Hw : Geometry.default_beamWidth <> 0%R).
  { unfold Geometry.default_beamWidth, Geometry.M_PI.
    pose proof PI_RGT_0. lra. }
  apply (normalizedBeamPower_profile Geometry.default_beamWidth 0 0 Hw).
Defined.

(** The ground-distance variant of the altitude counts the ground distance
    twice: [heightFromEtaGround] at the ground distance [2 g] is the
    altitude that [heightFromEtaBeam] gives along the beam to the ground
    distance [g] (slant range [beamFromEtaGround eta g]). *)
Theorem heightFromEtaGround_at_twice_the_distance (eta g : R) :
  (0 < cos (g / Geometry.EARTH_RADIUS_43 + eta))%R -> (0 <= cos eta)%R ->
  Geometry.heightFromEtaGround eta (2 * g)
  = Geometry.heightFromEtaBeam eta (Geometry.beamFromEtaGround eta g).
Proof.
  intros HC Hce. pose proof EARTH_RADIUS_43_pos as Ha.
  change (Geometry.beamFromEtaGround eta g)
    with (Geometry.beamFromEtaBeta eta (g / Geometry.EARTH_RADIUS_43)).
  rewrite height_along_beam by assumption.
  unfold Geometry.heightFromEtaGround, Geometry.heightFromEtaBeta. cbv zeta.
  replace (2 * g / (Geometry.EARTH_RADIUS_43 * 2))%R
    with (g / Geometry.EARTH_RADIUS_43)%R by (field; lra).
  rewrite (Rplus_comm eta). reflexivity.
Qed.

Lemma heightFromEtaGround_at_twice_the_distance_witness :
  Geometry.heightFromEtaGround 0 (2 * (Geometry.EARTH_RADIUS_43 * (PI / 6)))
  = Geometry.heightFromEtaBeam 0
      (Geometry.beamFromEtaGround 0 (Geometry.EARTH_RADIUS_43 * (PI / 6))).
Proof.
  pose proof PI_RGT_0 as Hpi. pose proof EARTH_RADIUS_43_pos as Ha.
  assert (Hb : (Geometry.EARTH_RADIUS_43 * (PI / 6) / Geometry.EARTH_RADIUS_43
                = PI / 6)%R) by (field; lra).
  apply (heightFromEtaGround_at_twice_the_distance 0
           (Geometry.EARTH_RADIUS_43 * (PI / 6))).
  - rewrite Hb, Rplus_0_r. apply cos_gt_0; lra.
  - rewrite cos_0. lra.
Defined.

(** ** Site coordinates: the frame, the site itself, the bounding box *)

Section SiteCoordinates.

Import Coordinates.
Local Open Scope R_scope.

Lemma EARTH_RADIUS_pos : 0 < EARTH_RADIUS.
Proof. unfold EARTH_RADIUS. lra. Qed.

(** [atan2] gives back the angle of a point of the circle of radius [k]. *)
Lemma atan2_polar (k phi : R) :
  0 < k -> - PI < phi <= PI ->
  atan2 (k * sin phi) (k * cos phi) = phi.
Proof.
  intros Hk [Hlo Hhi]. pose proof PI_RGT_0 as Hpi.
  assert (Htan : cos phi <> 0 -> k * sin phi / (k * cos phi) = tan phi).
  { intros Hc. unfold tan. field. split; lra. }
  unfold atan2.
  destruct (Rtotal_order phi (- (PI / 2))) as [Hlt | [Heq | Hgt]].
  - (* third quadrant *)
    assert (Hc : cos phi < 0).
    { rewrite <- cos_neg. apply cos_lt_0; lra. }
    assert (Hs : sin phi < 0).
    { rewrite <- (Ropp_involutive phi), sin_neg.
      assert (0 < sin (- phi)) by (apply sin_gt_0; lra). lra. }
    destruct (Rlt_dec 0 (k * cos phi)) as [H | _]; [nra|].
    destruct (Rlt_dec (k * cos phi) 0) as [_ | H]; [|nra].
    destruct (Rle_dec 0 (k * sin phi)) as [H | _]; [nra|].
    rewrite Htan by lra.
    replace (tan phi) with (tan (phi + PI)).
    + rewrite atan_tan by lra. ring.
    + unfold tan. rewrite neg_sin, neg_cos. field. lra.
  - subst phi. rewrite cos_neg, sin_neg, cos_PI2, sin_PI2.
    replace (k * 0) with 0 by ring.
    destruct (Rlt_dec 0 0) as [H | _]; [lra|].
    destruct (Rlt_dec 0 (k * - (1))) as [H | _]; [lra|].
    destruct (Rlt_dec (k * - (1)) 0) as [_ | H]; [reflexivity | lra].
  - destruct (Rtotal_order phi (PI / 2)) as [Hlt | [Heq | Hgt']].
    + (* right half plane *)
      assert (Hc : 0 < cos phi) by (apply cos_gt_0; lra).
      destruct (Rlt_dec 0 (k * cos phi)) as [_ | H]; [|nra].
      rewrite Htan by lra. apply atan_tan. lra.
    + subst phi. rewrite cos_PI2, sin_PI2.
      replace (k * 0) with 0 by ring.
      destruct (Rlt_dec 0 0) as [H | _]; [lra|].
      destruct (Rlt_dec 0 (k * 1)) as [_ | H]; [reflexivity | lra].
    + (* second quadrant *)
      assert (Hc : cos phi < 0) by (apply cos_lt_0; lra).
      assert (Hs : 0 <= sin phi) by (apply sin_ge_0; lra).
      destruct (Rlt_dec 0 (k * cos phi)) as [H | _]; [nra|].
      destruct (Rlt_dec (k * cos phi) 0) as [_ | H]; [|nra].
      destruct (Rle_dec 0 (k * sin phi)) as [_ | H]; [|nra].
      rewrite Htan by lra.
      replace (tan phi) with (tan (phi - PI)).
      * rewrite atan_tan by lra. ring.
      * unfold tan.
        replace (sin phi) with (sin (phi - PI + PI)) by (f_equal; ring).
        replace (cos phi) with (cos (phi - PI + PI)) by (f_equal; ring).
        rewrite neg_sin, neg_cos. field.
        intros H0. apply (Rlt_irrefl 0).
        replace (cos phi) with (cos (phi - PI + PI)) in Hc by (f_equal; ring).
        rewrite neg_cos in Hc. lra.
Qed.


(** [setBinPosition] reads the site frame only. *)
Lemma setBinPosition_site (azimuth range : R) (c c0 : t) :
  site_p0 c = site_p0 c0 -> site_eE c = site_eE c0 -> site_eN c = site_eN c0 ->
  setBinPosition azimuth range c = setBinPosition azimuth range c0.
Proof.
  destruct c, c0. unfold site_p0, site_eE, site_eN, setBinPosition. cbn.
  intros [= -> -> ->] [= -> -> ->] [= -> -> ->]. reflexivity.
Qed.

Lemma setBinPosition_keeps_site (azimuth range : R) (c : t) :
  site_p0 (setBinPosition azimuth range c) = site_p0 c /\
  site_eE (setBinPosition azimuth range c) = site_eE c /\
  site_eN (setBinPosition azimuth range c) = site_eN c.
Proof. repeat split. Qed.

(** The bin position on the meridian of the site, [k] being the distance of
    the bin from the Earth axis. *)
Lemma meridian_longitude (theta phi : R) (c : t) (range x3 : R) :
  - PI < phi <= PI ->
  0 < EARTH_RADIUS * cos theta * cos (range / (EARTH_RADIUS * 2))
      - x3 * sin theta ->
  forall azimuth,
    range * sin azimuth = 0 -> range * cos azimuth = x3 ->
    phiBin (setBinPosition azimuth range (origin theta phi c)) = phi.
Proof.
  intros Hphi Hk azimuth Hx2 Hx3.
  unfold setBinPosition, origin. cbn. rewrite Hx2, Hx3.
  set (k := EARTH_RADIUS * cos theta * cos (range / (EARTH_RADIUS * 2))
            - x3 * sin theta) in *.
  replace (EARTH_RADIUS * sin phi * cos theta * cos (range / (EARTH_RADIUS * 2))
           + cos phi * 0 + - sin phi * sin theta * x3)
    with (k * sin phi) by (unfold k; ring).
  replace (EARTH_RADIUS * cos phi * cos theta * cos (range / (EARTH_RADIUS * 2))
           + - sin phi * 0 + - cos phi * sin theta * x3)
    with (k * cos phi) by (unfold k; ring).
  apply atan2_polar; assumption.
Qed.

Lemma last_cons_default {A} (l : list A) : forall x d : A,
  last (x :: l) d = last l x.
Proof.
  induction l as [|y l IH]; intros x d; [reflexivity|].
  change (last (x :: y :: l) d) with (last (y :: l) d).
  rewrite !IH. reflexivity.
Qed.

Section Box.

Variable binLatitudeDeg : t -> R.
Variable binLongitudeDeg : t -> R.
Variable range : R.
Variable c0 : t.

Lemma box_loop_fold : forall (m k fuel : nat) (st : t * Box),
  (k + m = 18)%nat -> (m < fuel)%nat ->
  box_loop binLatitudeDeg binLongitudeDeg fuel range (20 * Z.of_nat k)%Z st
  = fold_left (fun st i => box_body binLatitudeDeg binLongitudeDeg range i st)
      (map (fun k => (20 * Z.of_nat k)%Z) (seq k m)) st.
Proof.
  induction m as [|m IH]; intros k fuel st Hk Hfuel.
  - destruct fuel as [|fuel]; [lia|]. cbn [box_loop seq map fold_left].
    destruct (Z.ltb_spec (20 * Z.of_nat k) 360); [lia | reflexivity].
  - destruct fuel as [|fuel]; [lia|]. cbn [box_loop seq map fold_left].
    destruct (Z.ltb_spec (20 * Z.of_nat k) 360); [|lia].
    replace (20 * Z.of_nat k + 20)%Z with (20 * Z.of_nat (S k))%Z by lia.
    rewrite IH by lia. reflexivity.
Qed.

(** The loop runs over the 18 azimuths and stops: the fuel is not used up. *)
Lemma getBoundingBox_fold :
  getBoundingBox binLatitudeDeg binLongitudeDeg range c0
  = fold_left (fun st i => box_body binLatitudeDeg binLongitudeDeg range i st)
      sweep_azimuths (setBinPosition 0 0 c0, box_init).
Proof.
  unfold getBoundingBox, sweep_azimuths.
  apply (box_loop_fold 18 0 360); [reflexivity | lia].
Qed.

Lemma box_body_step (c : t) (box : Box) (i : Z) :
  same_site c c0 ->
  exists box',
    box_body binLatitudeDeg binLongitudeDeg range i (c, box)
    = (sweep_sample range c0 i, box') /\
    box_holds binLatitudeDeg binLongitudeDeg box' (sweep_sample range c0 i) /\
    box_wider box box'.
Proof.
  intros (H0 & HE & HN).
  unfold box_body, sweep_sample.
  rewrite (setBinPosition_site _ _ c c0 H0 HE HN).
  eexists. split; [reflexivity|].
  unfold box_holds, box_wider. cbn.
  repeat split; try apply Rmin_l; try apply Rmin_r;
    try apply Rmax_l; try apply Rmax_r.
Qed.

Lemma box_fold (l : list Z) : forall (c : t) (box : Box),
  same_site c c0 ->
  exists c' box',
    fold_left (fun st i => box_body binLatitudeDeg binLongitudeDeg range i st)
      l (c, box) = (c', box') /\
    c' = last (map (sweep_sample range c0) l) c /\
    box_wider box box' /\
    forall i, In i l ->
      box_holds binLatitudeDeg binLongitudeDeg box' (sweep_sample range c0 i).
Proof.
  induction l as [|i l IH]; intros c box Hc; cbn [fold_left].
  - exists c, box. split; [reflexivity|]. split; [reflexivity|].
    split; [unfold box_wider; repeat split; apply Rle_refl|].
    intros j [].
  - destruct (box_body_step c box i Hc) as (box1 & -> & Hin & Hw).
    assert (Hsite : same_site (sweep_sample range c0 i) c0)
      by (repeat split).
    destruct (IH _ box1 Hsite) as (c' & box' & -> & Hlast & Hw' & Hall).
    exists c', box'. split; [reflexivity|]. split; [|split].
    + rewrite Hlast. cbn [map]. symmetry. apply last_cons_default.
    + unfold box_wider in *. repeat split; lra.
    + intros j [<- | Hj]; [|exact (Hall j Hj)].
      unfold box_holds, box_wider in *. repeat split; lra.
Qed.

Lemma getBoundingBox_spec :
  (forall i, In i sweep_azimuths ->
     box_holds binLatitudeDeg binLongitudeDeg
       (snd (getBoundingBox binLatitudeDeg binLongitudeDeg range c0))
       (sweep_sample range c0 i)) /\
  fst (getBoundingBox binLatitudeDeg binLongitudeDeg range c0)
  = sweep_sample range c0 340.
Proof.
  rewrite getBoundingBox_fold.
  destruct (box_fold sweep_azimuths (setBinPosition 0 0 c0) box_init)
    as (c' & box' & -> & Hlast & _ & Hall).
  { repeat split. }
  split; [exact Hall|].
  cbn [fst]. rewrite Hlast. reflexivity.
Qed.

End Box.

End SiteCoordinates.

(** The frame [origin] caches is orthonormal and tangent to the sphere at
    the site: the east and north vectors have length 1, are orthogonal to
    each other and to the site vector, which has the length of the Earth
    radius. *)
Theorem origin_frame_orthonormal (theta phi : R) (c : Coordinates.t) :
  dot (site_eE (Coordinates.origin theta phi c))
      (site_eE (Coordinates.origin theta phi c)) = 1%R /\
  dot (site_eN (Coordinates.origin theta phi c))
      (site_eN (Coordinates.origin theta phi c)) = 1%R /\
  dot (site_eE (Coordinates.origin theta phi c))
      (site_eN (Coordinates.origin theta phi c)) = 0%R /\
  dot (site_p0 (Coordinates.origin theta phi c))
      (site_eE (Coordinates.origin theta phi c)) = 0%R /\
  dot (site_p0 (Coordinates.origin theta phi c))
      (site_eN (Coordinates.origin theta phi c)) = 0%R /\
  dot (site_p0 (Coordinates.origin theta phi c))
      (site_p0 (Coordinates.origin theta phi c))
  = (Coordinates.EARTH_RADIUS * Coordinates.EARTH_RADIUS)%R.
Proof.
  pose proof (sin2_cos2 theta) as Ht. pose proof (sin2_cos2 phi) as Hp.
  unfold Rsqr in Ht, Hp.
  unfold dot, site_p0, site_eE, site_eN, Coordinates.origin. cbn.
  set (st := sin theta) in *. set (ct := cos theta) in *.
  set (sp := sin phi) in *. set (cp := cos phi) in *.
  set (r := Coordinates.EARTH_RADIUS).
  repeat split.
  - transitivity (sp * sp + cp * cp)%R; [ring | exact Hp].
  - transitivity ((sp * sp + cp * cp) * (st * st) + ct * ct)%R; [ring|].
    rewrite Hp. lra.
  - ring.
  - ring.
  - transitivity (r * ct * st * (1 - (sp * sp + cp * cp)))%R; [ring|].
    rewrite Hp. ring.
  - transitivity (r * r * ((sp * sp + cp * cp) * (ct * ct) + st * st))%R;
      [ring|].
    rewrite Hp. rewrite Rmult_1_l, (Rplus_comm (ct * ct)), Ht. ring.
Qed.

(** The bin at range 0 is the site: after [origin theta phi], for a latitude
    strictly between the poles and a longitude in (-pi, pi],
    [setBinPosition] at range 0 returns the latitude and longitude of the
    site, whatever the azimuth. *)
Theorem setBinPosition_range_0 (theta phi azimuth : R) (c : Coordinates.t) :
  (- (PI / 2) < theta < PI / 2)%R -> (- PI < phi <= PI)%R ->
  Coordinates.thetaBin
    (Coordinates.setBinPosition azimuth 0 (Coordinates.origin theta phi c))
  = theta /\
  Coordinates.phiBin
    (Coordinates.setBinPosition azimuth 0 (Coordinates.origin theta phi c))
  = phi.
Proof.
  intros Ht Hp. pose proof EARTH_RADIUS_pos as Hr.
  assert (Hct : (0 < cos theta)%R) by (apply cos_gt_0; lra).
  assert (Hx1 : cos (0 / (Coordinates.EARTH_RADIUS * 2)) = 1%R).
  { replace (0 / (Coordinates.EARTH_RADIUS * 2))%R with 0%R by (field; lra).
    apply cos_0. }
  split.
  - unfold Coordinates.setBinPosition, Coordinates.origin. cbn.
    rewrite Hx1.
    replace ((Coordinates.EARTH_RADIUS * sin theta * 1 + 0 * (0 * sin azimuth)
              + cos theta * (0 * cos azimuth)) / Coordinates.EARTH_RADIUS)%R
      with (sin theta) by (field; lra).
    apply asin_sin. lra.
  - apply (meridian_longitude theta phi c 0 0 Hp).
    + rewrite Hx1, Rmult_0_l, Rmult_1_r, Rminus_0_r.
      apply Rmult_lt_0_compat; assumption.
    + ring.
    + ring.
Qed.

Lemma setBinPosition_range_0_witness :
  Coordinates.thetaBin
    (Coordinates.setBinPosition 0 0
       (Coordinates.origin (PI / 3) (PI / 12)
          (Coordinates.mk 0 0 0 0 0 0 0 0 0 0 0 0 0 0)))
  = (PI / 3)%R.
Proof.
  pose proof PI_RGT_0 as Hpi.
  apply (setBinPosition_range_0 (PI / 3) (PI / 12) 0); lra.
Defined.

(** A bin due north (azimuth 0) or due south (azimuth pi) of the site keeps
    the longitude of the site, as long as the bin position stays on the
    site's side of the Earth axis. *)
Theorem setBinPosition_meridian (theta phi range : R) (c : Coordinates.t) :
  (- PI < phi <= PI)%R ->
  ((0 < Coordinates.EARTH_RADIUS * cos theta
        * cos (range / (Coordinates.EARTH_RADIUS * 2)) - range * sin theta)%R ->
   Coordinates.phiBin
     (Coordinates.setBinPosition 0 range (Coordinates.origin theta phi c))
   = phi) /\
  ((0 < Coordinates.EARTH_RADIUS * cos theta
        * cos (range / (Coordinates.EARTH_RADIUS * 2)) + range * sin theta)%R ->
   Coordinates.phiBin
     (Coordinates.setBinPosition PI range (Coordinates.origin theta phi c))
   = phi).
Proof.
  intros Hp. split; intros Hk.
  - apply (meridian_longitude theta phi c range range Hp Hk).
    + rewrite sin_0. ring.
    + rewrite cos_0. ring.
  - apply (meridian_longitude theta phi c range (- range) Hp).
    + replace (- range * sin theta)%R with (- (range * sin theta))%R by ring.
      lra.
    + rewrite sin_PI. ring.
    + rewrite cos_PI. ring.
Qed.

Lemma setBinPosition_meridian_witness :
  Coordinates.phiBin
    (Coordinates.setBinPosition 0 0
       (Coordinates.origin 0 (PI / 12)
          (Coordinates.mk 0 0 0 0 0 0 0 0 0 0 0 0 0 0)))
  = (PI / 12)%R.
Proof.
  pose proof PI_RGT_0 as Hpi. pose proof EARTH_RADIUS_pos as Hr.
  assert (Hp : (- PI < PI / 12 <= PI)%R) by lra.
  apply (proj1 (setBinPosition_meridian 0 (PI / 12) 0
                  (Coordinates.mk 0 0 0 0 0 0 0 0 0 0 0 0 0 0) Hp)).
  replace (0 / (Coordinates.EARTH_RADIUS * 2))%R with 0%R by (field; lra).
  rewrite cos_0, sin_0. lra.
Defined.

(** [getBoundingBox] returns a box that holds each of the 18 bins it samples
    (azimuths 0, 20, ..., 340 degrees at the given range), so its minima are
    not above its maxima; the site frame is kept, and the object is left on
    the last bin sampled, the one at 340 degrees. *)
Theorem getBoundingBox_holds_samples
        (binLatitudeDeg binLongitudeDeg : Coordinates.t -> R)
        (range : R) (c : Coordinates.t) :
  (forall i, In i sweep_azimuths ->
     box_holds binLatitudeDeg binLongitudeDeg
       (snd (Coordinates.getBoundingBox binLatitudeDeg binLongitudeDeg range c))
       (Coordinates.setBinPosition (IZR i * PI / 180) range c)) /\
  (Coordinates.latMin
     (snd (Coordinates.getBoundingBox binLatitudeDeg binLongitudeDeg range c))
   <= Coordinates.latMax
        (snd (Coordinates.getBoundingBox binLatitudeDeg binLongitudeDeg
                range c)))%R /\
  (Coordinates.lonMin
     (snd (Coordinates.getBoundingBox binLatitudeDeg binLongitudeDeg range c))
   <= Coordinates.lonMax
        (snd (Coordinates.getBoundingBox binLatitudeDeg binLongitudeDeg
                range c)))%R /\
  fst (Coordinates.getBoundingBox binLatitudeDeg binLongitudeDeg range c)
  = Coordinates.setBinPosition (340 * PI / 180) range c /\
  same_site
    (fst (Coordinates.getBoundingBox binLatitudeDeg binLongitudeDeg range c)) c.
Proof.
  destruct (getBoundingBox_spec binLatitudeDeg binLongitudeDeg range c)
    as [Hall Hlast].
  split; [exact Hall|].
  assert (H0 : In 0%Z sweep_azimuths) by (left; reflexivity).
  destruct (Hall 0%Z H0) as [Hlat Hlon].
  split; [lra|]. split; [lra|].
  split; [exact Hlast|]. rewrite Hlast. repeat split.
Qed.

(** ** Unit conversions: names, formats, round trips, lists *)

Section HowAttributesMore.

Import CString OdimIoUtilities.
Local Open Scope R_scope.

Lemma strcasecmp_lower (s : list ascii) : forall n n' : list ascii,
  lower_case n = lower_case n' -> strcasecmp s n = strcasecmp s n'.
Proof.
  induction s as [|c s IH]; intros n n' H;
    destruct n as [|d n], n' as [|d' n']; try discriminate H;
    try reflexivity; cbn in H; injection H as Hd Hn; cbn [strcasecmp];
    rewrite Hd; [reflexivity|].
  rewrite (IH n n' Hn). reflexivity.
Qed.

Lemma name_is_lower (lit : string) (n n' : list ascii) :
  lower_case n = lower_case n' -> name_is lit n = name_is lit n'.
Proof.
  intros H. unfold name_is. rewrite (strcasecmp_lower _ n n' H). reflexivity.
Qed.

Lemma tolower_NUL (c : ascii) : tolower c = NUL -> c = NUL.
Proof.
  destruct c as [[] [] [] [] [] [] [] []]; vm_compute; intros H;
    first [reflexivity | discriminate H].
Qed.

Lemma uchar_inj (a b : ascii) : uchar a = uchar b -> a = b.
Proof.
  unfold uchar. intros H. apply Nat2Z.inj in H.
  rewrite <- (ascii_nat_embedding a), <- (ascii_nat_embedding b), H.
  reflexivity.
Qed.

Lemma uchar_0 (a : ascii) : uchar a = 0%Z -> a = NUL.
Proof. intros H. apply uchar_inj. rewrite H. reflexivity. Qed.

(** On C strings (no NUL inside) [strcasecmp] returns 0 only for names that
    are equal up to the case of their letters. *)
Lemma strcasecmp_0_lower : forall s1 s2 : list ascii,
  ~ In NUL s1 -> ~ In NUL s2 ->
  strcasecmp s1 s2 = 0%Z -> lower_case s1 = lower_case s2.
Proof.
  induction s1 as [|c1 s1 IH]; intros [|c2 s2] H1 H2 H; cbn [strcasecmp] in H.
  - reflexivity.
  - exfalso. apply H2. left. apply tolower_NUL, uchar_0. lia.
  - exfalso. apply H1. left. apply tolower_NUL, uchar_0. lia.
  - destruct (Z.eqb_spec (uchar (tolower c1) - uchar (tolower c2)) 0)
      as [Hd | Hd]; [|contradiction].
    cbn [lower_case map]. f_equal.
    + apply uchar_inj. lia.
    + apply IH; [intros Hin; apply H1 | intros Hin; apply H2 | exact H];
        right; exact Hin.
Qed.

Variable RaveIO_ODIM_Version_2_4 : Z.

Lemma convert_lower (n n' : list ascii) (version : Z) (attr : RaveAttribute_t) :
  lower_case n = lower_case n' ->
  convertHowAttributeToInternalRave RaveIO_ODIM_Version_2_4 n version attr
  = convertHowAttributeToInternalRave RaveIO_ODIM_Version_2_4 n' version attr
  /\
  convertHowAttributeFromInternalRave RaveIO_ODIM_Version_2_4 n version attr
  = convertHowAttributeFromInternalRave RaveIO_ODIM_Version_2_4 n' version attr.
Proof.
  intros H.
  unfold convertHowAttributeToInternalRave, convertHowAttributeFromInternalRave.
  repeat rewrite (name_is_lower _ n n' H). split; reflexivity.
Qed.


(** Evaluate the name tests on literal attribute names. *)
Ltac eval_name_tests :=
  repeat match goal with
         | |- context [name_is ?lit (cstr ?s)] =>
             let b := eval vm_compute in (name_is lit (cstr s)) in
             change (name_is lit (cstr s)) with b
         end;
  cbn [orb andb].

Lemma name_is_false (lit : string) (n : list ascii) :
  ~ In NUL n -> ~ In NUL (cstr lit) ->
  lower_case n <> lower_case (cstr lit) ->
  name_is lit n = false.
Proof.
  intros Hn Hlit Hne. unfold name_is.
  destruct (Z.eqb_spec (strcasecmp (cstr lit) n) 0) as [H0 | _];
    [|reflexivity].
  exfalso. apply Hne. symmetry.
  apply strcasecmp_0_lower; assumption.
Qed.

Lemma convertTo_keeps (attrname : list ascii) (version : Z)
      (attr : RaveAttribute_t) :
  fst (convertHowAttributeToInternalRave RaveIO_ODIM_Version_2_4
         attrname version attr) = 1%Z /\
  RaveAttribute_getFormat
    (snd (convertHowAttributeToInternalRave RaveIO_ODIM_Version_2_4
            attrname version attr))
  = RaveAttribute_getFormat attr /\
  forall a, attr = AttrDoubleArray a ->
    exists a',
      snd (convertHowAttributeToInternalRave RaveIO_ODIM_Version_2_4
             attrname version attr) = AttrDoubleArray a' /\
      List.length a' = List.length a.
Proof.
  unfold convertHowAttributeToInternalRave.
  destruct (version <? RaveIO_ODIM_Version_2_4)%Z.
  - cbn. repeat split. intros a ->. eauto.
  - destruct attr;
      cbn [RaveAttribute_getFormat Format_eqb RaveAttribute_getDouble
             RaveAttribute_setDouble RaveAttribute_getDoubleArray andb];
      repeat match goal with
             | |- context [if ?b then _ else _] => destruct b
             end;
      cbn [fst snd RaveAttribute_getFormat];
      (split; [reflexivity|]); (split; [reflexivity|]);
      intros a' [= <-]; eexists; (split; [reflexivity|]);
      rewrite ?darr_loop_map, ?length_map; reflexivity.
Qed.

Lemma convertFrom_keeps (attrname : list ascii) (version : Z)
      (attr : RaveAttribute_t) :
  fst (convertHowAttributeFromInternalRave RaveIO_ODIM_Version_2_4
         attrname version attr) = 1%Z /\
  RaveAttribute_getFormat
    (snd (convertHowAttributeFromInternalRave RaveIO_ODIM_Version_2_4
            attrname version attr))
  = RaveAttribute_getFormat attr /\
  forall a, attr = AttrDoubleArray a ->
    exists a',
      snd (convertHowAttributeFromInternalRave RaveIO_ODIM_Version_2_4
             attrname version attr) = AttrDoubleArray a' /\
      List.length a' = List.length a.
Proof.
  unfold convertHowAttributeFromInternalRave.
  destruct (version <? RaveIO_ODIM_Version_2_4)%Z.
  - cbn. repeat split. intros a ->. eauto.
  - destruct attr;
      cbn [RaveAttribute_getFormat Format_eqb RaveAttribute_getDouble
             RaveAttribute_setDouble RaveAttribute_getDoubleArray andb];
      repeat match goal with
             | |- context [if ?b then _ else _] => destruct b
             end;
      cbn [fst snd RaveAttribute_getFormat];
      (split; [reflexivity|]); (split; [reflexivity|]);
      intros a' [= <-]; eexists; (split; [reflexivity|]);
      rewrite ?darr_loop_map, ?length_map; reflexivity.
Qed.


Lemma no_NUL_literal (lit : list ascii) :
  existsb (char_eqb NUL) lit = false -> ~ In NUL lit.
Proof.
  intros H Hin.
  assert (existsb (char_eqb NUL) lit = true).
  { apply existsb_exists. exists NUL. split; [exact Hin|].
    unfold char_eqb. apply Ascii.eqb_refl. }
  congruence.
Qed.

(** A name that is none of the converted names fails every test of a
    double. *)
Lemma other_name_tests (attrname : list ascii) :
  ~ In NUL attrname ->
  ~ In (lower_case attrname) (map lower_case converted_double_names) ->
  name_is "how/gasattn" attrname = false /\
  name_is "how/minrange" attrname = false /\
  name_is "how/maxrange" attrname = false /\
  name_is "how/melting_layer_top_A" attrname = false /\
  name_is "how/melting_layer_bottom_A" attrname = false /\
  name_is "how/nomTXpower" attrname = false /\
  name_is "how/peakpwr" attrname = false /\
  name_is "how/avgpwr" attrname = false.
Proof.
  intros Hnul Hnot.
  assert (Hf : forall lit : string,
             In (cstr lit) converted_double_names ->
             existsb (char_eqb NUL) (cstr lit) = false ->
             name_is lit attrname = false).
  { intros lit Hin Hlit. apply name_is_false.
    - exact Hnul.
    - apply no_NUL_literal. exact Hlit.
    - intros Heq. apply Hnot. rewrite Heq. apply in_map. exact Hin. }
  repeat split; apply Hf; try reflexivity;
    unfold converted_double_names, gasattn_name, range_names, power_names;
    cbn [app]; auto 10 using in_eq, in_cons.
Qed.

Lemma convert_other_double (attrname : list ascii) (version : Z) (v : R) :
  ~ In NUL attrname ->
  ~ In (lower_case attrname) (map lower_case converted_double_names) ->
  convertHowAttributeToInternalRave RaveIO_ODIM_Version_2_4 attrname version
    (AttrDouble v) = (1%Z, AttrDouble v) /\
  convertHowAttributeFromInternalRave RaveIO_ODIM_Version_2_4 attrname version
    (AttrDouble v) = (1%Z, AttrDouble v).
Proof.
  intros Hnul Hnot.
  destruct (other_name_tests attrname Hnul Hnot)
    as (H1 & H2 & H3 & H4 & H5 & H6 & H7 & H8).
  unfold convertHowAttributeToInternalRave, convertHowAttributeFromInternalRave.
  rewrite H1, H2, H3, H4, H5, H6, H7, H8. cbn.
  destruct (version <? RaveIO_ODIM_Version_2_4)%Z; split; reflexivity.
Qed.

Lemma convert_other_array (attrname : list ascii) (version : Z) (a : list R) :
  ~ In NUL attrname ->
  lower_case attrname <> lower_case (cstr "how/TXpower") ->
  convertHowAttributeToInternalRave RaveIO_ODIM_Version_2_4 attrname version
    (AttrDoubleArray a) = (1%Z, AttrDoubleArray a) /\
  convertHowAttributeFromInternalRave RaveIO_ODIM_Version_2_4 attrname version
    (AttrDoubleArray a) = (1%Z, AttrDoubleArray a).
Proof.
  intros Hnul Hne.
  assert (H : name_is "how/TXpower" attrname = false).
  { apply name_is_false; [exact Hnul | apply no_NUL_literal; reflexivity
                         | exact Hne]. }
  unfold convertHowAttributeToInternalRave, convertHowAttributeFromInternalRave.
  rewrite H. cbn.
  destruct (version <? RaveIO_ODIM_Version_2_4)%Z; split; reflexivity.
Qed.

Lemma convert_other_format (attrname : list ascii) (version : Z)
      (attr : RaveAttribute_t) :
  RaveAttribute_getFormat attr <> RaveAttribute_Format_Double ->
  RaveAttribute_getFormat attr <> RaveAttribute_Format_DoubleArray ->
  convertHowAttributeToInternalRave RaveIO_ODIM_Version_2_4 attrname version
    attr = (1%Z, attr) /\
  convertHowAttributeFromInternalRave RaveIO_ODIM_Version_2_4 attrname version
    attr = (1%Z, attr).
Proof.
  intros Hd Ha.
  unfold convertHowAttributeToInternalRave, convertHowAttributeFromInternalRave.
  destruct attr; cbn in Hd, Ha; try congruence; cbn;
    destruct (version <? RaveIO_ODIM_Version_2_4)%Z; split; reflexivity.
Qed.

Lemma convert_scaled (attrname : list ascii) (version : Z) (v : R) :
  (RaveIO_ODIM_Version_2_4 <= version)%Z ->
  (attrname = gasattn_name ->
   convertHowAttributeToInternalRave RaveIO_ODIM_Version_2_4 attrname version
     (AttrDouble v) = (1%Z, AttrDouble (v * 1000)) /\
   convertHowAttributeFromInternalRave RaveIO_ODIM_Version_2_4 attrname version
     (AttrDouble v) = (1%Z, AttrDouble (v / 1000))) /\
  (In attrname range_names ->
   convertHowAttributeToInternalRave RaveIO_ODIM_Version_2_4 attrname version
     (AttrDouble v) = (1%Z, AttrDouble (v / 1000)) /\
   convertHowAttributeFromInternalRave RaveIO_ODIM_Version_2_4 attrname version
     (AttrDouble v) = (1%Z, AttrDouble (v * 1000))).
Proof.
  intros Hver.
  unfold convertHowAttributeToInternalRave, convertHowAttributeFromInternalRave.
  rewrite (proj2 (Z.ltb_ge _ _) Hver).
  cbn [RaveAttribute_getFormat Format_eqb RaveAttribute_getDouble
         RaveAttribute_setDouble].
  split.
  - intros ->. unfold gasattn_name. eval_name_tests. split; reflexivity.
  - intros [<- | [<- | [<- | [<- | []]]]]; eval_name_tests; split; reflexivity.
Qed.

Lemma convert_at_app (version : Z) (pre rest : list NamedAttribute)
      (name : list ascii) (attr : RaveAttribute_t) :
  convert_at RaveIO_ODIM_Version_2_4 version (pre ++ (name, attr) :: rest)
    (List.length pre)
  = (pre ++ (name, snd (convertHowAttributeFromInternalRave
                          RaveIO_ODIM_Version_2_4 name version attr))
         :: rest)%list.
Proof.
  unfold convert_at.
  rewrite nth_error_app2 by lia. rewrite Nat.sub_diag. cbn [nth_error].
  rewrite firstn_app, Nat.sub_diag, firstn_all. cbn [firstn].
  rewrite app_nil_r.
  rewrite skipn_app, skipn_all2 by lia.
  replace (S (List.length pre) - List.length pre)%nat with 1%nat by lia.
  reflexivity.
Qed.

Lemma convert_from_app (version : Z) (rest : list NamedAttribute) :
  forall pre : list NamedAttribute,
    convert_from RaveIO_ODIM_Version_2_4 version (List.length pre)
      (List.length rest) (pre ++ rest)
    = (pre ++ map (fun na => (fst na,
                             snd (convertHowAttributeFromInternalRave
                                    RaveIO_ODIM_Version_2_4 (fst na) version
                                    (snd na)))) rest)%list.
Proof.
  induction rest as [|[name attr] rest IH]; intros pre;
    cbn [convert_from List.length map].
  - reflexivity.
  - rewrite convert_at_app. cbn [fst snd].
    set (x := (name, snd (convertHowAttributeFromInternalRave
                            RaveIO_ODIM_Version_2_4 name version attr))).
    replace (pre ++ x :: rest)%list with ((pre ++ [x]) ++ rest)%list
      by (rewrite <- app_assoc; reflexivity).
    replace (S (List.length pre)) with (List.length (pre ++ [x])%list)
      by (rewrite length_app; cbn; lia).
    rewrite IH. rewrite <- app_assoc. reflexivity.
Qed.

End HowAttributesMore.

(** Attribute names are matched without regard to case: two names that are
    equal once their letters are put in lower case are converted alike, on
    the read path and on the write path, for every version and attribute. *)
Theorem conversion_ignores_case
        (v24 version : Z) (n n' : list ascii)
        (attr : OdimIoUtilities.RaveAttribute_t) :
  lower_case n = lower_case n' ->
  OdimIoUtilities.convertHowAttributeToInternalRave v24 n version attr
  = OdimIoUtilities.convertHowAttributeToInternalRave v24 n' version attr /\
  OdimIoUtilities.convertHowAttributeFromInternalRave v24 n version attr
  = OdimIoUtilities.convertHowAttributeFromInternalRave v24 n' version attr.
Proof. apply convert_lower. Qed.

Lemma conversion_ignores_case_witness :
  OdimIoUtilities.convertHowAttributeFromInternalRave 4 (cstr "HOW/PeakPwr") 4
    (OdimIoUtilities.AttrDouble 250)
  = OdimIoUtilities.convertHowAttributeFromInternalRave 4 (cstr "how/peakpwr") 4
      (OdimIoUtilities.AttrDouble 250).
Proof.
  apply (conversion_ignores_case 4 4 (cstr "HOW/PeakPwr") (cstr "how/peakpwr")
           (OdimIoUtilities.AttrDouble 250)).
  reflexivity.
Defined.

(** Whatever the name, the version and the attribute, both conversions
    return 1 and keep the format of the attribute; a double array keeps its
    length. *)
Theorem conversion_keeps_format
        (v24 version : Z) (attrname : list ascii)
        (attr : OdimIoUtilities.RaveAttribute_t) :
  (fst (OdimIoUtilities.convertHowAttributeToInternalRave v24 attrname version
          attr) = 1%Z /\
   OdimIoUtilities.RaveAttribute_getFormat
     (snd (OdimIoUtilities.convertHowAttributeToInternalRave v24 attrname
             version attr))
   = OdimIoUtilities.RaveAttribute_getFormat attr /\
   forall a, attr = OdimIoUtilities.AttrDoubleArray a ->
     exists a',
       snd (OdimIoUtilities.convertHowAttributeToInternalRave v24 attrname
              version attr) = OdimIoUtilities.AttrDoubleArray a' /\
       List.length a' = List.length a) /\
  (fst (OdimIoUtilities.convertHowAttributeFromInternalRave v24 attrname
          version attr) = 1%Z /\
   OdimIoUtilities.RaveAttribute_getFormat
     (snd (OdimIoUtilities.convertHowAttributeFromInternalRave v24 attrname
             version attr))
   = OdimIoUtilities.RaveAttribute_getFormat attr /\
   forall a, attr = OdimIoUtilities.AttrDoubleArray a ->
     exists a',
       snd (OdimIoUtilities.convertHowAttributeFromInternalRave v24 attrname
              version attr) = OdimIoUtilities.AttrDoubleArray a' /\
       List.length a' = List.length a).
Proof.
  split; [apply convertTo_keeps | apply convertFrom_keeps].
Qed.

(** What is not listed is left alone, for every version: an attribute that
    is neither a double nor a double array; a double whose name is, up to
    case, none of how/gasattn, how/minrange, how/maxrange,
    how/melting_layer_top_A, how/melting_layer_bottom_A, how/nomTXpower,
    how/peakpwr, how/avgpwr; a double array whose name is not, up to case,
    how/TXpower. *)
Theorem conversion_leaves_others
        (v24 version : Z) (attrname : list ascii)
        (attr : OdimIoUtilities.RaveAttribute_t) (v : R) (a : list R) :
  ~ In CString.NUL attrname ->
  (OdimIoUtilities.RaveAttribute_getFormat attr
   <> OdimIoUtilities.RaveAttribute_Format_Double ->
   OdimIoUtilities.RaveAttribute_getFormat attr
   <> OdimIoUtilities.RaveAttribute_Format_DoubleArray ->
   OdimIoUtilities.convertHowAttributeToInternalRave v24 attrname version attr
   = (1%Z, attr) /\
   OdimIoUtilities.convertHowAttributeFromInternalRave v24 attrname version attr
   = (1%Z, attr)) /\
  (~ In (lower_case attrname) (map lower_case converted_double_names) ->
   OdimIoUtilities.convertHowAttributeToInternalRave v24 attrname version
     (OdimIoUtilities.AttrDouble v) = (1%Z, OdimIoUtilities.AttrDouble v) /\
   OdimIoUtilities.convertHowAttributeFromInternalRave v24 attrname version
     (OdimIoUtilities.AttrDouble v) = (1%Z, OdimIoUtilities.AttrDouble v)) /\
  (lower_case attrname <> lower_case (cstr "how/TXpower") ->
   OdimIoUtilities.convertHowAttributeToInternalRave v24 attrname version
     (OdimIoUtilities.AttrDoubleArray a)
   = (1%Z, OdimIoUtilities.AttrDoubleArray a) /\
   OdimIoUtilities.convertHowAttributeFromInternalRave v24 attrname version
     (OdimIoUtilities.AttrDoubleArray a)
   = (1%Z, OdimIoUtilities.AttrDoubleArray a)).
Proof.
  intros Hnul. split; [|split].
  - apply convert_other_format.
  - apply convert_other_double. exact Hnul.
  - apply convert_other_array. exact Hnul.
Qed.

Lemma conversion_leaves_others_witness :
  OdimIoUtilities.convertHowAttributeFromInternalRave 4 (cstr "how/TXpower") 4
    (OdimIoUtilities.AttrDouble 250)
  = (1%Z, OdimIoUtilities.AttrDouble 250).
Proof.
  assert (Hnul : ~ In CString.NUL (cstr "how/TXpower")).
  { apply no_NUL_literal. reflexivity. }
  destruct (conversion_leaves_others 4 4 (cstr "how/TXpower")
              (OdimIoUtilities.AttrDouble 250) 250 [] Hnul) as (_ & H & _).
  apply H.
  intros Hin. cbv in Hin.
  repeat (destruct Hin as [Hin | Hin]; [discriminate Hin|]). exact Hin.
Defined.

(** The attributes scaled by 1000 survive a round trip in both directions:
    for a version of at least 2.4 and the names how/gasattn, how/minrange,
    how/maxrange, how/melting_layer_top_A and how/melting_layer_bottom_A,
    writing then reading, and reading then writing, return the double
    started from. *)
Theorem scaled_attribute_round_trip
        (v24 version : Z) (attrname : list ascii) (v : R) :
  (v24 <= version)%Z ->
  In attrname (gasattn_name :: range_names) ->
  OdimIoUtilities.write_then_read v24 attrname version
    (OdimIoUtilities.AttrDouble v) = OdimIoUtilities.AttrDouble v /\
  OdimIoUtilities.read_then_write v24 attrname version
    (OdimIoUtilities.AttrDouble v) = OdimIoUtilities.AttrDouble v.
Proof.
  intros Hver Hname.
  unfold OdimIoUtilities.write_then_read, OdimIoUtilities.read_then_write.
  destruct Hname as [<- | Hname].
  - destruct (convert_scaled v24 gasattn_name version v Hver) as [H _].
    destruct (H eq_refl) as [Hto Hfrom].
    destruct (convert_scaled v24 gasattn_name version (v / 1000) Hver) as [H1 _].
    destruct (H1 eq_refl) as [Hto1 _].
    destruct (convert_scaled v24 gasattn_name version (v * 1000) Hver) as [H2 _].
    destruct (H2 eq_refl) as [_ Hfrom2].
    rewrite Hto, Hfrom. cbn [snd]. rewrite Hto1, Hfrom2. cbn [snd].
    split; f_equal; field.
  - destruct (convert_scaled v24 attrname version v Hver) as [_ H].
    destruct (H Hname) as [Hto Hfrom].
    destruct (convert_scaled v24 attrname version (v * 1000) Hver) as [_ H1].
    destruct (H1 Hname) as [Hto1 _].
    destruct (convert_scaled v24 attrname version (v / 1000) Hver) as [_ H2].
    destruct (H2 Hname) as [_ Hfrom2].
    rewrite Hto, Hfrom. cbn [snd]. rewrite Hto1, Hfrom2. cbn [snd].
    split; f_equal; field.
Qed.

Lemma scaled_attribute_round_trip_witness :
  OdimIoUtilities.write_then_read 4 (cstr "how/gasattn") 4
    (OdimIoUtilities.AttrDouble (2 / 100))
  = OdimIoUtilities.AttrDouble (2 / 100).
Proof.
  apply (scaled_attribute_round_trip 4 4 (cstr "how/gasattn") (2 / 100)).
  - lia.
  - left. reflexivity.
Defined.

(** [convertHowAttributesFromInternalRave] returns 1 and replaces each
    attribute of the list, in place and in order, by what
    [convertHowAttributeFromInternalRave] makes of it under its own name;
    names, order and length of the list are kept.  Below version 2.4 the
    list is returned as it is. *)
Theorem convertHowAttributesFromInternalRave_each
        (v24 version : Z) (attributes : list OdimIoUtilities.NamedAttribute) :
  OdimIoUtilities.convertHowAttributesFromInternalRave v24 attributes version
  = (1%Z,
     map (fun na =>
            (fst na,
             snd (OdimIoUtilities.convertHowAttributeFromInternalRave v24
                    (fst na) version (snd na)))) attributes) /\
  map fst (snd (OdimIoUtilities.convertHowAttributesFromInternalRave v24
                  attributes version)) = map fst attributes /\
  ((version < v24)%Z ->
   OdimIoUtilities.convertHowAttributesFromInternalRave v24 attributes version
   = (1%Z, attributes)).
Proof.
  assert (Heach :
    OdimIoUtilities.convertHowAttributesFromInternalRave v24 attributes version
    = (1%Z,
       map (fun na =>
              (fst na,
               snd (OdimIoUtilities.convertHowAttributeFromInternalRave v24
                      (fst na) version (snd na)))) attributes)).
  { unfold OdimIoUtilities.convertHowAttributesFromInternalRave.
    destruct (Z.ltb_spec version v24) as [Hlt | Hge].
    - f_equal. rewrite <- (map_id attributes) at 1.
      apply map_ext. intros [name attr]. cbn [fst snd].
      unfold OdimIoUtilities.convertHowAttributeFromInternalRave.
      rewrite (proj2 (Z.ltb_lt _ _) Hlt). reflexivity.
    - rewrite Nat2Z.id. f_equal.
      exact (convert_from_app v24 version attributes []). }
  split; [exact Heach|]. split.
  - rewrite Heach. cbn [snd]. rewrite map_map. reflexivity.
  - intros Hlt.
    unfold OdimIoUtilities.convertHowAttributesFromInternalRave.
    rewrite (proj2 (Z.ltb_lt _ _) Hlt). reflexivity.
Qed.

(** ** Source identifiers: failure, bounds of the writes, fallback *)

Section SourceIdentifiersMore.

Import CString OdimIoUtilities.
Local Open Scope list_scope.

(** The two outcomes of [getIdFromSource] on a buffer of at least [buflen]
    bytes. *)
Lemma getIdFromSource_outcome (source id buf : list ascii) (buflen : Z) :
  (strlen source < INT_MAX)%Z ->
  (buflen <= Z.of_nat (List.length buf))%Z ->
  getIdFromSource (Some source) (Some id) buf buflen = (0%Z, buf) \/
  exists value,
    (Z.of_nat (List.length value) + 1 < buflen)%Z /\
    getIdFromSource (Some source) (Some id) buf buflen
    = (1%Z, value ++ NUL :: skipn (S (List.length value)) buf).
Proof.
  intros Hlen Hbuf.
  destruct (strstr source id) as [p|] eqn:Hp.
  - destruct (strstr_Some id source p Hp) as (pre & tail & Hfirst & _).
    destruct (value_up_to_comma_exists tail) as [value Hval].
    destruct (Z.ltb_spec (Z.of_nat (List.length value) + 1) buflen)
      as [Hroom | Hsmall].
    + right. exists value. split; [exact Hroom|].
      apply (getIdFromSource_copies source id pre tail); assumption.
    + left.
      rewrite (getIdFromSource_found source id pre tail value buf buflen)
        by assumption.
      rewrite (proj2 (Z.ltb_ge _ _) Hsmall). reflexivity.
  - left. unfold getIdFromSource. rewrite Hp. reflexivity.
Qed.

Lemma written_buffer_frame (buf value : list ascii) (buflen : Z) :
  (Z.of_nat (List.length value) + 1 < buflen)%Z ->
  (buflen <= Z.of_nat (List.length buf))%Z ->
  List.length (value ++ NUL :: skipn (S (List.length value)) buf)
  = List.length buf /\
  forall i : nat,
    (buflen - 1 <= Z.of_nat i)%Z ->
    nth_error (value ++ NUL :: skipn (S (List.length value)) buf) i
    = nth_error buf i.
Proof.
  intros Hroom Hbuf. split.
  - rewrite length_app. cbn [List.length]. rewrite length_skipn. lia.
  - intros i Hi.
    rewrite nth_error_app2 by lia.
    destruct (i - List.length value)%nat as [|k] eqn:Hk; [lia|].
    cbn [nth_error]. rewrite nth_error_skipn. f_equal. lia.
Qed.

Lemma getIdFromSource_frame (source id buf : list ascii) (buflen : Z) :
  (strlen source < INT_MAX)%Z ->
  (buflen <= Z.of_nat (List.length buf))%Z ->
  List.length (snd (getIdFromSource (Some source) (Some id) buf buflen))
  = List.length buf /\
  forall i : nat,
    (buflen - 1 <= Z.of_nat i)%Z ->
    nth_error (snd (getIdFromSource (Some source) (Some id) buf buflen)) i
    = nth_error buf i.
Proof.
  intros Hlen Hbuf.
  destruct (getIdFromSource_outcome source id buf buflen Hlen Hbuf)
    as [-> | (value & Hroom & ->)]; cbn [snd].
  - split; reflexivity.
  - apply written_buffer_frame; assumption.
Qed.

Lemma getIdFromSource_result (source id : option (list ascii))
      (buf : list ascii) (buflen : Z) :
  (fst (getIdFromSource source id buf buflen) = 0%Z /\
   snd (getIdFromSource source id buf buflen) = buf) \/
  fst (getIdFromSource source id buf buflen) = 1%Z.
Proof.
  unfold getIdFromSource.
  destruct source as [source|], id as [id|]; try (left; split; reflexivity).
  destruct (strstr source id); [|left; split; reflexivity].
  cbv zeta.
  match goal with |- context [if ?b then _ else _] => destruct b end;
    [right | left; split]; reflexivity.
Qed.

Lemma c_string_in_app (value rest : list ascii) :
  ~ In NUL value -> c_string_in (value ++ NUL :: rest) = value.
Proof.
  induction value as [|c value IH]; intros Hnul; cbn [app c_string_in].
  - unfold char_eqb. rewrite Ascii.eqb_refl. reflexivity.
  - destruct (char_eqb c NUL) eqn:E.
    + unfold char_eqb in E. apply Ascii.eqb_eq in E. subst c.
      exfalso. apply Hnul. left. reflexivity.
    + rewrite IH; [reflexivity|]. intros H. apply Hnul. right. exact H.
Qed.

End SourceIdentifiersMore.

(** Failure leaves the buffer alone: [getIdFromSource] and
    [getNodOrCmtFromSource] return 0 or 1; when they return 0 the buffer is
    as it was; a null source or a null key gives 0. *)
Theorem source_lookup_failure_frame
        (source id : option (list ascii)) (buf : list ascii) (buflen : Z) :
  ((fst (OdimIoUtilities.getIdFromSource source id buf buflen) = 0%Z /\
    snd (OdimIoUtilities.getIdFromSource source id buf buflen) = buf) \/
   fst (OdimIoUtilities.getIdFromSource source id buf buflen) = 1%Z) /\
  ((fst (OdimIoUtilities.getNodOrCmtFromSource source buf buflen) = 0%Z /\
    snd (OdimIoUtilities.getNodOrCmtFromSource source buf buflen) = buf) \/
   fst (OdimIoUtilities.getNodOrCmtFromSource source buf buflen) = 1%Z) /\
  (source = None \/ id = None ->
   OdimIoUtilities.getIdFromSource source id buf buflen = (0%Z, buf)) /\
  OdimIoUtilities.getNodOrCmtFromSource None buf buflen = (0%Z, buf).
Proof.
  split; [apply getIdFromSource_result|]. split.
  - unfold OdimIoUtilities.getNodOrCmtFromSource.
    destruct (getIdFromSource_result source (Some (cstr "NOD:")) buf buflen)
      as [[H0 Hb] | H1];
      destruct (OdimIoUtilities.getIdFromSource source (Some (cstr "NOD:"))
                  buf buflen) as [r b]; cbn [fst snd] in *; subst.
    + cbn [Z.eqb].
      apply (getIdFromSource_result source (Some (cstr "CMT:")) buf buflen).
    + right. reflexivity.
  - split; [|reflexivity].
    intros [-> | ->]; [reflexivity|].
    destruct source; reflexivity.
Qed.

(** The writes stay inside the buffer: for a source shorter than [INT_MAX]
    and a buffer of at least [buflen] bytes, [getIdFromSource] and
    [getNodOrCmtFromSource] keep the length of the buffer and leave every
    byte from index [buflen - 1] on as it was; the last of the [buflen]
    bytes is never written. *)
Theorem source_lookup_stays_inside
        (source id buf : list ascii) (buflen : Z) :
  (CString.strlen source < INT_MAX)%Z ->
  (buflen <= Z.of_nat (List.length buf))%Z ->
  (List.length
     (snd (OdimIoUtilities.getIdFromSource (Some source) (Some id) buf buflen))
   = List.length buf /\
   forall i : nat,
     (buflen - 1 <= Z.of_nat i)%Z ->
     nth_error
       (snd (OdimIoUtilities.getIdFromSource (Some source) (Some id) buf buflen))
       i = nth_error buf i) /\
  (List.length
     (snd (OdimIoUtilities.getNodOrCmtFromSource (Some source) buf buflen))
   = List.length buf /\
   forall i : nat,
     (buflen - 1 <= Z.of_nat i)%Z ->
     nth_error
       (snd (OdimIoUtilities.getNodOrCmtFromSource (Some source) buf buflen))
       i = nth_error buf i).
Proof.
  intros Hlen Hbuf.
  split; [apply getIdFromSource_frame; assumption|].
  unfold OdimIoUtilities.getNodOrCmtFromSource.
  pose proof (getIdFromSource_frame source (cstr "NOD:") buf buflen Hlen Hbuf)
    as Hnod.
  destruct (getIdFromSource_result (Some source) (Some (cstr "NOD:")) buf buflen)
    as [[H0 Hb] | H1];
    destruct (OdimIoUtilities.getIdFromSource (Some source) (Some (cstr "NOD:"))
                buf buflen) as [r b]; cbn [fst snd] in *; subst.
  - cbn [Z.eqb]. apply getIdFromSource_frame; assumption.
  - cbn [Z.eqb snd]. exact Hnod.
Qed.

Lemma source_lookup_stays_inside_witness :
  nth_error
    (snd (OdimIoUtilities.getIdFromSource
            (Some (cstr "WMO:02954,NOD:sekir,CMT:Kiruna")) (Some (cstr "NOD:"))
            (repeat "x"%char 7) 7)) 6
  = nth_error (repeat "x"%char 7) 6.
Proof.
  assert (Hlen : (CString.strlen (cstr "WMO:02954,NOD:sekir,CMT:Kiruna")
                  < INT_MAX)%Z) by reflexivity.
  assert (Hbuf : (7 <= Z.of_nat (List.length (repeat "x"%char 7)))%Z)
    by (cbn; lia).
  apply (source_lookup_stays_inside
           (cstr "WMO:02954,NOD:sekir,CMT:Kiruna") (cstr "NOD:")
           (repeat "x"%char 7) 7 Hlen Hbuf).
  cbn. lia.
Defined.

(** The fallback to CMT: is also taken when NOD: is present but its value
    does not pass the size check: for a source shorter than [INT_MAX] whose
    first NOD: is followed by [value], and [buflen <= length value + 1],
    [getNodOrCmtFromSource] is [getIdFromSource] with the key CMT: on the
    untouched buffer. *)
Theorem getNodOrCmtFromSource_falls_back_on_long_NOD
        (source pre tail value buf : list ascii) (buflen : Z) :
  (CString.strlen source < INT_MAX)%Z ->
  first_occurrence (cstr "NOD:") source pre tail ->
  value_up_to_comma tail value ->
  (buflen <= Z.of_nat (List.length value) + 1)%Z ->
  OdimIoUtilities.getNodOrCmtFromSource (Some source) buf buflen
  = OdimIoUtilities.getIdFromSource (Some source) (Some (cstr "CMT:")) buf buflen.
Proof.
  intros Hlen Hfirst Hval Hsmall.
  unfold OdimIoUtilities.getNodOrCmtFromSource.
  rewrite (getIdFromSource_found source (cstr "NOD:") pre tail value buf buflen)
    by assumption.
  rewrite (proj2 (Z.ltb_ge _ _) Hsmall). reflexivity.
Qed.

Lemma getNodOrCmtFromSource_falls_back_on_long_NOD_witness :
  OdimIoUtilities.getNodOrCmtFromSource
    (Some (cstr "NOD:sekir,CMT:Ki")) (repeat "x"%char 4) 4
  = OdimIoUtilities.getIdFromSource
      (Some (cstr "NOD:sekir,CMT:Ki")) (Some (cstr "CMT:")) (repeat "x"%char 4) 4.
Proof.
  assert (Hlen : (CString.strlen (cstr "NOD:sekir,CMT:Ki") < INT_MAX)%Z)
    by reflexivity.
  assert (Hfirst : first_occurrence (cstr "NOD:") (cstr "NOD:sekir,CMT:Ki")
                     [] (cstr "sekir,CMT:Ki")).
  { split; [reflexivity|]. intros; cbn; lia. }
  assert (Hval : value_up_to_comma (cstr "sekir,CMT:Ki") (cstr "sekir")).
  { split.
    - cbn. intros H. repeat (destruct H as [H | H]; [discriminate H|]). exact H.
    - right. exists (cstr "CMT:Ki"). reflexivity. }
  apply (getNodOrCmtFromSource_falls_back_on_long_NOD
           (cstr "NOD:sekir,CMT:Ki") [] (cstr "sekir,CMT:Ki") (cstr "sekir")
           (repeat "x"%char 4) 4 Hlen Hfirst Hval).
  cbn. lia.
Defined.

(** What the caller reads back is the value: after a successful
    [getIdFromSource], the C string in the buffer (the bytes before the
    first NUL) is the value that follows the first occurrence of the key,
    and it holds no comma. *)
Theorem getIdFromSource_read_back
        (source key pre tail value buf : list ascii) (buflen : Z) :
  (CString.strlen source < INT_MAX)%Z ->
  (Z.of_nat (List.length value) + 1 < buflen)%Z ->
  (buflen <= Z.of_nat (List.length buf))%Z ->
  first_occurrence key source pre tail ->
  value_up_to_comma tail value ->
  ~ In CString.NUL value ->
  fst (OdimIoUtilities.getIdFromSource (Some source) (Some key) buf buflen)
  = 1%Z /\
  c_string_in
    (snd (OdimIoUtilities.getIdFromSource (Some source) (Some key) buf buflen))
  = value /\
  ~ In comma value.
Proof.
  intros Hlen Hroom Hbuf Hfirst Hval Hnul.
  rewrite (getIdFromSource_copies source key pre tail value buf buflen)
    by assumption.
  cbn [fst snd]. split; [reflexivity|]. split.
  - apply c_string_in_app. exact Hnul.
  - apply Hval.
Qed.

Lemma getIdFromSource_read_back_witness :
  c_string_in
    (snd (OdimIoUtilities.getIdFromSource
            (Some (cstr "WMO:02954,NOD:sekir,CMT:Kiruna")) (Some (cstr "CMT:"))
            (repeat "x"%char 16) 16))
  = cstr "Kiruna".
Proof.
  assert (Hlen : (CString.strlen (cstr "WMO:02954,NOD:sekir,CMT:Kiruna")
                  < INT_MAX)%Z) by reflexivity.
  assert (Hroom : (Z.of_nat (List.length (cstr "Kiruna")) + 1 < 16)%Z)
    by reflexivity.
  assert (Hbuf : (16 <= Z.of_nat (List.length (repeat "x"%char 16)))%Z)
    by (cbn; lia).
  assert (Hfirst : first_occurrence (cstr "CMT:")
                     (cstr "WMO:02954,NOD:sekir,CMT:Kiruna")
                     (cstr "WMO:02954,NOD:sekir,") (cstr "Kiruna"))
    by first_occurrence_here.
  assert (Hval : value_up_to_comma (cstr "Kiruna") (cstr "Kiruna")).
  { split.
    - cbn. intros H. repeat (destruct H as [H | H]; [discriminate H|]). exact H.
    - left. reflexivity. }
  assert (Hnul : ~ In CString.NUL (cstr "Kiruna")).
  { cbn. intros H. repeat (destruct H as [H | H]; [discriminate H|]). exact H. }
  apply (getIdFromSource_read_back
           (cstr "WMO:02954,NOD:sekir,CMT:Kiruna") (cstr "CMT:")
           (cstr "WMO:02954,NOD:sekir,") (cstr "Kiruna") (cstr "Kiruna")
           (repeat "x"%char 16) 16 Hlen Hroom Hbuf Hfirst Hval Hnul).
Defined.

(** ** The elevation search on the scans themselves and outside them *)

Section ClosestElevationsMore.

Local Open Scope Q_scope.

Lemma ascending_head_least (x : Q) (r : list Q) :
  strictly_ascending (x :: r) -> forall y, In y r -> x < y.
Proof.
  revert x. induction r as [|z r IH]; intros x Hasc y Hin; [destruct Hin|].
  destruct Hasc as [Hxz Hrest].
  destruct Hin as [<- | Hin]; [exact Hxz|].
  apply Qlt_trans with z; [exact Hxz | exact (IH z Hrest y Hin)].
Qed.

Lemma ascending_tail (x : Q) (r : list Q) :
  strictly_ascending (x :: r) -> strictly_ascending r.
Proof. intros [_ H]. exact H. Qed.

Lemma ascending_lt (S : list Q) : forall (i j : nat) (x y : Q),
  strictly_ascending S ->
  nth_error S i = Some x -> nth_error S j = Some y ->
  (i < j)%nat -> x < y.
Proof.
  induction S as [|z S IH]; intros i j x y Hasc Hi Hj Hij.
  - destruct i; discriminate Hi.
  - destruct j as [|j]; [lia|]. cbn [nth_error] in Hj.
    destruct i as [|i].
    + injection Hi as <-.
      apply (ascending_head_least z S Hasc). exact (nth_error_In _ _ Hj).
    + cbn [nth_error] in Hi.
      apply (IH i j x y (ascending_tail z S Hasc) Hi Hj). lia.
Qed.

(** In a strictly ascending list equal angles sit at the same index. *)
Lemma ascending_index (S : list Q) (i j : nat) (x y : Q) :
  strictly_ascending S ->
  nth_error S i = Some x -> nth_error S j = Some y ->
  x == y -> i = j.
Proof.
  intros Hasc Hi Hj Heq.
  destruct (Nat.lt_trichotomy i j) as [Hlt | [Heq' | Hgt]]; [|exact Heq'|].
  - exfalso. pose proof (ascending_lt S i j x y Hasc Hi Hj Hlt) as H.
    rewrite Heq in H. exact (Qlt_irrefl _ H).
  - exfalso. pose proof (ascending_lt S j i y x Hasc Hj Hi Hgt) as H.
    rewrite Heq in H. exact (Qlt_irrefl _ H).
Qed.

Lemma closest_on_scan (S : list Q) (t : Q) (i : nat) (e : Q) :
  strictly_ascending S -> Forall inside_bounds S ->
  (Z.of_nat (List.length S) <= 2 ^ 31)%Z ->
  nth_error S i = Some e -> e == t ->
  Geometry.elevationIndexLower (Geometry.findClosestElevations S t)
  = Z.of_nat i /\
  Geometry.elevationIndexUpper (Geometry.findClosestElevations S t)
  = Z.of_nat i.
Proof.
  intros Hasc Hall Hlen Hi Het.
  destruct (findClosestElevations_ok t S Hlen Hall) as [Hlo Hup].
  pose proof (nth_error_In _ _ Hi) as Hin.
  assert (Hle : e <= t) by (rewrite Het; apply Qle_refl).
  assert (Hge : t <= e) by (rewrite Het; apply Qle_refl).
  split.
  - destruct Hlo as [(_ & _ & Hnone) | (l & el & -> & Hl & _ & Hel & Hmax)].
    + exfalso. exact (Hnone e Hin Hle).
    + f_equal. apply (ascending_index S l i el e Hasc Hl Hi).
      apply Qle_antisym; [|exact (Hmax e Hin Hle)].
      rewrite Het. exact Hel.
  - destruct Hup as [(_ & _ & Hnone) | (u & eu & -> & Hu & _ & Heu & Hmin)].
    + exfalso. exact (Hnone e Hin Hge).
    + f_equal. apply (ascending_index S u i eu e Hasc Hu Hi).
      apply Qle_antisym; [exact (Hmin e Hin Hge)|].
      rewrite Het. exact Heu.
Qed.

Lemma closest_below (x : Q) (r : list Q) (t : Q) :
  strictly_ascending (x :: r) -> Forall inside_bounds (x :: r) ->
  (Z.of_nat (List.length (x :: r)) <= 2 ^ 31)%Z ->
  t < x ->
  (Geometry.elevationIndexLower (Geometry.findClosestElevations (x :: r) t)
   = (-1)%Z /\
   Geometry.elevationAngleLower (Geometry.findClosestElevations (x :: r) t)
   = - Geometry.M_PI_2_float) /\
  Geometry.elevationIndexUpper (Geometry.findClosestElevations (x :: r) t)
  = 0%Z.
Proof.
  intros Hasc Hall Hlen Htx.
  destruct (findClosestElevations_ok t (x :: r) Hlen Hall) as [Hlo Hup].
  assert (Hleast : forall y, In y (x :: r) -> x <= y).
  { intros y [<- | Hin]; [apply Qle_refl|].
    apply Qlt_le_weak. exact (ascending_head_least x r Hasc y Hin). }
  split.
  - destruct Hlo as [(H & Ha & _) | (l & el & _ & Hl & _ & Hel & _)];
      [split; assumption|].
    exfalso. pose proof (Hleast el (nth_error_In _ _ Hl)) as H.
    apply (Qlt_irrefl t).
    apply Qlt_le_trans with x; [exact Htx|].
    apply Qle_trans with el; assumption.
  - destruct Hup as [(_ & _ & Hnone) | (u & eu & -> & Hu & _ & Heu & Hmin)].
    + exfalso. apply (Hnone x (in_eq x r)). apply Qlt_le_weak. exact Htx.
    + change 0%Z with (Z.of_nat 0). f_equal.
      apply (ascending_index (x :: r) u 0 eu x Hasc Hu eq_refl).
      apply Qle_antisym.
      * apply Hmin; [apply in_eq | apply Qlt_le_weak; exact Htx].
      * exact (Hleast eu (nth_error_In _ _ Hu)).
Qed.

Lemma ascending_last_greatest (S : list Q) (n : nat) (x : Q) :
  strictly_ascending S ->
  nth_error S n = Some x -> Datatypes.S n = List.length S ->
  forall y, In y S -> y <= x.
Proof.
  intros Hasc Hn Hlast y Hin.
  destruct (In_nth_error _ _ Hin) as [j Hj].
  assert (Hjlt : (j < List.length S)%nat)
    by (apply nth_error_Some; congruence).
  destruct (Nat.eq_dec j n) as [-> | Hne].
  - assert (x = y) by congruence. subst. apply Qle_refl.
  - apply Qlt_le_weak. apply (ascending_lt S j n y x Hasc Hj Hn). lia.
Qed.

Lemma closest_above (S : list Q) (n : nat) (x t : Q) :
  strictly_ascending S -> Forall inside_bounds S ->
  (Z.of_nat (List.length S) <= 2 ^ 31)%Z ->
  nth_error S n = Some x -> Datatypes.S n = List.length S ->
  x < t ->
  Geometry.elevationIndexLower (Geometry.findClosestElevations S t)
  = Z.of_nat n /\
  Geometry.elevationIndexUpper (Geometry.findClosestElevations S t)
  = (-1)%Z /\
  Geometry.elevationAngleUpper (Geometry.findClosestElevations S t)
  = Geometry.M_PI_2_float.
Proof.
  intros Hasc Hall Hlen Hn Hlast Hxt.
  destruct (findClosestElevations_ok t S Hlen Hall) as [Hlo Hup].
  pose proof (ascending_last_greatest S n x Hasc Hn Hlast) as Hgreatest.
  split.
  - destruct Hlo as [(_ & _ & Hnone) | (l & el & -> & Hl & _ & Hel & Hmax)].
    + exfalso. apply (Hnone x (nth_error_In _ _ Hn)).
      apply Qlt_le_weak. exact Hxt.
    + f_equal. apply (ascending_index S l n el x Hasc Hl Hn).
      apply Qle_antisym.
      * exact (Hgreatest el (nth_error_In _ _ Hl)).
      * apply Hmax; [exact (nth_error_In _ _ Hn)|].
        apply Qlt_le_weak. exact Hxt.
  - destruct Hup as [(H & Ha & _) | (u & eu & _ & Hu & _ & Heu & _)];
      [split; assumption|].
    exfalso. pose proof (Hgreatest eu (nth_error_In _ _ Hu)) as H.
    apply (Qlt_irrefl t).
    apply Qle_lt_trans with x; [|exact Hxt].
    apply Qle_trans with eu; assumption.
Qed.

End ClosestElevationsMore.

(** A target that is one of the scans selects that scan on both sides: for a
    strictly ascending list inside the bounds of the search (at most 2^31
    elements), if the target equals the element at index [i], the lower and
    the upper index returned are both [i]. *)
Theorem findClosestElevations_on_a_scan
        (S : list Q) (t : Q) (i : nat) (e : Q) :
  strictly_ascending S -> Forall inside_bounds S ->
  (Z.of_nat (List.length S) <= 2 ^ 31)%Z ->
  nth_error S i = Some e -> (e == t)%Q ->
  Geometry.elevationIndexLower (Geometry.findClosestElevations S t)
  = Z.of_nat i /\
  Geometry.elevationIndexUpper (Geometry.findClosestElevations S t)
  = Z.of_nat i.
Proof. apply closest_on_scan. Qed.

Lemma findClosestElevations_on_a_scan_witness :
  Geometry.elevationIndexLower
    (Geometry.findClosestElevations [1 # 100; 2 # 100; 3 # 100] (4 # 200))
  = 1%Z /\
  Geometry.elevationIndexUpper
    (Geometry.findClosestElevations [1 # 100; 2 # 100; 3 # 100] (4 # 200))
  = 1%Z.
Proof.
  apply (findClosestElevations_on_a_scan
           [1 # 100; 2 # 100; 3 # 100] (4 # 200) 1 (2 # 100)).
  - cbn. repeat split; reflexivity.
  - repeat constructor; reflexivity.
  - cbn. lia.
  - reflexivity.
  - reflexivity.
Defined.

(** Outside the scans only one side is found: for a strictly ascending list
    inside the bounds of the search (at most 2^31 elements), a target below
    the first element returns the indices (-1, 0), the lower angle staying
    at its initial bound; a target above the last element returns
    (n - 1, -1), the upper angle staying at its initial bound. *)
Theorem findClosestElevations_outside
        (x : Q) (r : list Q) (n : nat) (y t : Q) :
  strictly_ascending (x :: r) -> Forall inside_bounds (x :: r) ->
  (Z.of_nat (List.length (x :: r)) <= 2 ^ 31)%Z ->
  nth_error (x :: r) n = Some y -> Datatypes.S n = List.length (x :: r) ->
  ((t < x)%Q ->
   Geometry.elevationIndexLower (Geometry.findClosestElevations (x :: r) t)
   = (-1)%Z /\
   Geometry.elevationAngleLower (Geometry.findClosestElevations (x :: r) t)
   = (- Geometry.M_PI_2_float)%Q /\
   Geometry.elevationIndexUpper (Geometry.findClosestElevations (x :: r) t)
   = 0%Z) /\
  ((y < t)%Q ->
   Geometry.elevationIndexLower (Geometry.findClosestElevations (x :: r) t)
   = Z.of_nat n /\
   Geometry.elevationIndexUpper (Geometry.findClosestElevations (x :: r) t)
   = (-1)%Z /\
   Geometry.elevationAngleUpper (Geometry.findClosestElevations (x :: r) t)
   = Geometry.M_PI_2_float).
Proof.
  intros Hasc Hall Hlen Hn Hlast. split; intros Ht.
  - destruct (closest_below x r t Hasc Hall Hlen Ht) as [[H1 H2] H3].
    repeat split; assumption.
  - exact (closest_above (x :: r) n y t Hasc Hall Hlen Hn Hlast Ht).
Qed.

Lemma findClosestElevations_outside_witness :
  Geometry.elevationIndexLower
    (Geometry.findClosestElevations [1 # 100; 2 # 100; 3 # 100] 0)
  = (-1)%Z /\
  Geometry.elevationAngleLower
    (Geometry.findClosestElevations [1 # 100; 2 # 100; 3 # 100] 0)
  = (- Geometry.M_PI_2_float)%Q /\
  Geometry.elevationIndexUpper
    (Geometry.findClosestElevations [1 # 100; 2 # 100; 3 # 100] 0)
  = 0%Z.
Proof.
  apply (findClosestElevations_outside
           (1 # 100) [2 # 100; 3 # 100] 2 (3 # 100) 0).
  - cbn. repeat split; reflexivity.
  - repeat constructor; reflexivity.
  - cbn. lia.
  - reflexivity.
  - reflexivity.
  - reflexivity.
Defined.
